(** * A shallow embedding of [signals.hpp] (std-signals)

    The connection ring of a [signal] is an intrusive circular doubly
    linked list of [node]s rooted at a sentinel ([m_head]).  We represent
    it by the sequence of nodes met when following [m_next] from the
    sentinel until the sentinel is reached again; [m_prev] is the same
    sequence read backwards, so it is not stored separately.  Node
    identities are the addresses handed out by [new]; a
    [connection_handler] is the pair (address of the signal, address of
    the node).  Pointers are natural numbers, [nullptr] is [0].

    A slot ([std::function]) is either empty or a small program: the
    commands it performs on the same signal while it runs (connect,
    disconnect, a recursive [emit], raising an exception), followed by the
    value it returns.  Emission is a fuel-bounded interpreter over a
    world made of the signal and an event log. *)

From Stdlib Require Import List Arith Bool Lia.
Set Warnings "-register-all".

Import ListNotations.

Section Signals.

(** The slot result type [Result]. *)
Context {R : Type}.

(** The allocator behind [new node_type{...}]: given the addresses of the
    nodes currently alive, it returns the address of the new node.  It may
    hand out again an address that was freed earlier. *)
Variable alloc : list nat -> nat.

(** ** Data model *)

(** What a slot does on the signal it is connected to while it runs. *)
Inductive cmd : Type :=
| Connect (f : option (list cmd * R))   (** [connect(slot_type f)] *)
| Disconnect (sg id : nat)             (** [disconnect(connection_handler{sg, id})] *)
| Emit (ctrl : R -> bool)              (** recursive [emit()] with controller [ctrl] *)
| Throw.                               (** [throw ...] *)

(** [slot_type = std::function<Result(Args...)>]: the body and the
    returned value; [None] is the empty function. *)
Definition slot_type : Type := (list cmd * R)%type.

(** [details::node<slot_type>]: its address and [m_function]. *)
Record node : Type := mk_node {
  addr : nat;
  m_function : option slot_type
}.

(** [details::signal_base]. *)
Record signal : Type := mk_signal {
  self : nat;                 (** [this] *)
  m_head : option nat;        (** the sentinel, created lazily *)
  ring : list node;           (** the nodes after the sentinel, in [m_next] order *)
  m_recursionDepth : nat;
  m_deactivations : bool
}.

(** [signal_base::connection_handler = std::pair<signal_base*, void*>]. *)
Definition connection_handler : Type := (nat * nat)%type.

Definition null_handler : connection_handler := (0, 0).

Definition with_head (s : signal) (h : nat) : signal :=
  mk_signal (self s) (Some h) (ring s) (m_recursionDepth s) (m_deactivations s).
Definition with_ring (s : signal) (l : list node) : signal :=
  mk_signal (self s) (m_head s) l (m_recursionDepth s) (m_deactivations s).
Definition with_depth (s : signal) (d : nat) : signal :=
  mk_signal (self s) (m_head s) (ring s) d (m_deactivations s).
Definition with_deactivations (s : signal) (b : bool) : signal :=
  mk_signal (self s) (m_head s) (ring s) (m_recursionDepth s) b.

(** [signal_base()]: no ring, counter zero, flag clear. *)
Definition new_signal (this : nat) : signal := mk_signal this None [] 0 false.

Definition addrs (l : list node) : list nat := map addr l.

(** Addresses of the nodes owned by the signal (sentinel included). *)
Definition live (s : signal) : list nat :=
  match m_head s with None => [] | Some h => h :: addrs (ring s) end.

(** ** The ring: [node_base::insert], [extract], [next], [deactivate] *)

(** [m_head->insert(node)]: splice [n] immediately before the sentinel. *)
Definition insert (l : list node) (n : node) : list node := l ++ [n].

(** [node->extract()]: unlink the node at [id]. *)
Fixpoint extract (id : nat) (l : list node) : list node :=
  match l with
  | [] => []
  | n :: l' => if addr n =? id then l' else n :: extract id l'
  end.

(** [node->deactivate()]: [m_function = nullptr], links untouched. *)
Fixpoint deactivate (id : nat) (l : list node) : list node :=
  match l with
  | [] => []
  | n :: l' => if addr n =? id then mk_node (addr n) None :: l'
               else n :: deactivate id l'
  end.

(** [m_head->next()]: the first node after the sentinel, or the sentinel. *)
Definition first_of (h : nat) (l : list node) : nat :=
  match l with [] => h | n :: _ => addr n end.

(** [node->next()] for the node at [a]; [None] when no node of the ring is
    at [a] (the pointer would be dangling). *)
Fixpoint next_of (h a : nat) (l : list node) : option nat :=
  match l with
  | [] => None
  | n :: l' => if addr n =? a then Some (first_of h l') else next_of h a l'
  end.

(** Dereferencing the node pointer [a]. *)
Fixpoint lookup (a : nat) (l : list node) : option node :=
  match l with
  | [] => None
  | n :: l' => if addr n =? a then Some n else lookup a l'
  end.

(** ** [signal::connect] *)

(** [if ( !m_head ) m_head = ... new node_type{nullptr} ...]. *)
Definition lazy_head (s : signal) : signal :=
  match m_head s with
  | Some _ => s
  | None => with_head s (alloc (live s))
  end.

(** [connect(slot_type f)]: no check on [f]. *)
Definition connect (f : option slot_type) (s : signal) : signal * connection_handler :=
  let s1 := lazy_head s in
  let a := alloc (live s1) in
  (with_ring s1 (insert (ring s1) (mk_node a f)), (self s1, a)).

(** [connect(C *obj, Result (C::*mf)(Args...))] (and its [const C*]
    twin): a null receiver gives [connection_handler{}]; otherwise the
    lambda [[&obj, mf](Args... args){ return (obj.*mf)(args...); }],
    which is never an empty function. *)
Definition connect_ptr {C : Type} (obj : option C) (mf : C -> slot_type) (s : signal)
  : signal * connection_handler :=
  match obj with
  | Some o => connect (Some (mf o)) s
  | None => (s, null_handler)
  end.

(** ** [signal_base::disconnect] *)

(** [while ( node != m_head.get() && node != id ) node = node->next();] *)
Fixpoint scan (h id : nat) (l : list node) : nat :=
  match l with
  | [] => h
  | n :: l' => if (addr n =? h) || (addr n =? id) then addr n else scan h id l'
  end.

(** [disconnect(void* id)].  [None] stands for the one path that frees the
    sentinel still owned by [m_head] (every later use of the signal is
    undefined behaviour). *)
Definition disconnect_id (id : nat) (s : signal) : option (bool * signal) :=
  match m_head s with
  | None => Some (false, s)
  | Some h =>
      let node := scan h id (ring s) in
      if node =? id then
        if m_recursionDepth s =? 0 then
          if node =? h then None
          else Some (true, with_ring s (extract node (ring s)))
        else Some (true, with_deactivations (with_ring s (deactivate node (ring s))) true)
      else Some (false, s)
  end.

(** [disconnect(const connection_handler &con)]. *)
Definition disconnect (con : connection_handler) (s : signal) : option (bool * signal) :=
  if negb (fst con =? self s) then Some (false, s) else disconnect_id (snd con) s.

(** ** [signal_base::connected] *)

(** [for ( ; node != m_head.get(); node = node->next() ) if ( node == id ) return true;] *)
Fixpoint connected_scan (h id : nat) (l : list node) : bool :=
  match l with
  | [] => false
  | n :: l' => if addr n =? h then false
               else if addr n =? id then true else connected_scan h id l'
  end.

Definition connected_id (id : nat) (s : signal) : bool :=
  match m_head s with
  | None => false
  | Some h => connected_scan h id (ring s)
  end.

Definition connected (con : connection_handler) (s : signal) : bool :=
  if negb (fst con =? self s) then false else connected_id (snd con) s.

(** ** Emission *)

(** The log: slot invocations (node, counter, number of slot invocations of
    the signal on the call stack, this one included), each command a slot
    performs (counter, nesting of the running slot), and raised errors. *)
Inductive event : Type :=
| Invoked (a depth nest : nat)
| Step (depth nest : nat)
| Raised (depth nest : nat).

Record world : Type := mk_world {
  sig : signal;
  log : list event
}.

Definition with_sig (w : world) (s : signal) : world := mk_world s (log w).
Definition emit_event (w : world) (e : event) : world := mk_world (sig w) (log w ++ [e]).

(** Outcome of running code on the world: normal return, an exception
    propagating (with the world as unwound so far), undefined behaviour,
    or the fuel ran out. *)
Inductive result (X : Type) : Type :=
| Ok (x : X) (w : world)
| Exn (w : world)
| UB
| NoFuel.
Arguments Ok {X}. Arguments Exn {X}. Arguments UB {X}. Arguments NoFuel {X}.

(** [ScopedIncrement]: [++m_recursionDepth] / [--m_recursionDepth]. *)
Definition incr (s : signal) : signal := with_depth s (S (m_recursionDepth s)).
Definition decr (s : signal) : signal := with_depth s (pred (m_recursionDepth s)).

(** The sweep loop of [emit]: delete every node whose function is null. *)
Fixpoint sweep_ring (l : list node) : list node :=
  match l with
  | [] => []
  | n :: l' => match m_function n with
               | None => sweep_ring l'
               | Some _ => n :: sweep_ring l'
               end
  end.

Definition sweep (s : signal) : signal :=
  with_deactivations (with_ring s (sweep_ring (ring s))) false.

(** [if ( m_recursionDepth == 0 && m_deactivations ) { sweep; m_deactivations = false; }] *)
Definition emit_tail (w : world) : world :=
  if (m_recursionDepth (sig w) =? 0) && m_deactivations (sig w)
  then with_sig w (sweep (sig w)) else w.

(** [exec_cmds]: running a slot body; [emit_loop]: the [for] loop of
    [emit] (with [ConnectionInvoker::invoke] inlined), returning the final
    aggregation and [ok]; [emit]: [signal::emit] up to [aggregation.get()].
    A recursive [emit()] from a slot discards its result, so it runs with
    [aggregation_void]. *)
Fixpoint exec_cmds (fuel nest : nat) (cs : list cmd) (w : world) {struct fuel}
  : result unit :=
  match fuel with
  | 0 => NoFuel
  | S fuel' =>
    match cs with
    | [] => Ok tt w
    | c :: cs' =>
      let s := sig w in
      let w := emit_event w (Step (m_recursionDepth s) nest) in
      match c with
      | Connect f => exec_cmds fuel' nest cs' (with_sig w (fst (connect f s)))
      | Disconnect sg id =>
          match disconnect (sg, id) s with
          | Some (_, s') => exec_cmds fuel' nest cs' (with_sig w s')
          | None => UB
          end
      | Emit ctrl =>
          match emit fuel' nest ctrl (fun _ _ => tt) tt w with
          | Ok _ w' => exec_cmds fuel' nest cs' w'
          | Exn w' => Exn w'
          | UB => UB
          | NoFuel => NoFuel
          end
      | Throw => Exn (emit_event w (Raised (m_recursionDepth s) nest))
      end
    end
  end
with emit_loop (fuel nest : nat) (ctrl : R -> bool) {A : Type} (agg : A -> R -> A)
  (h node : nat) (ok : bool) (acc : A) (w : world) {struct fuel} : result (A * bool) :=
  match fuel with
  | 0 => NoFuel
  | S fuel' =>
    if negb (node =? h) && ok then
      let w1 := with_sig w (incr (sig w)) in
      match lookup node (ring (sig w1)) with
      | None => UB
      | Some n =>
        let invoked :=
          match m_function n with
          | None => Ok (ok, acc) w1
          | Some (body, v) =>
              match exec_cmds fuel' (S nest) body
                      (emit_event w1 (Invoked node (m_recursionDepth (sig w1)) (S nest))) with
              | Ok _ w2 => Ok (ctrl v, agg acc v) w2
              | Exn w2 => Exn w2
              | UB => UB
              | NoFuel => NoFuel
              end
          end in
        match invoked with
        | Ok (ok', acc') w2 =>
            match next_of h node (ring (sig w2)) with
            | None => UB
            | Some node' =>
                emit_loop fuel' nest ctrl agg h node' ok' acc' (with_sig w2 (decr (sig w2)))
            end
        | Exn w2 => Exn (with_sig w2 (decr (sig w2)))
        | UB => UB
        | NoFuel => NoFuel
        end
      end
    else Ok (acc, ok) w
  end
with emit (fuel nest : nat) (ctrl : R -> bool) {A : Type} (agg : A -> R -> A)
  (acc : A) (w : world) {struct fuel} : result A :=
  match fuel with
  | 0 => NoFuel
  | S fuel' =>
    match m_head (sig w) with
    | None => Ok acc w
    | Some h =>
        match emit_loop fuel' nest ctrl agg h (first_of h (ring (sig w))) true acc w with
        | Ok (acc', _) w' => Ok acc' (emit_tail w')
        | Exn w' => Exn w'
        | UB => UB
        | NoFuel => NoFuel
        end
    end
  end.

(** ** Aggregations and controllers *)

Record aggregation (A B : Type) : Type := {
  agg_init : A;
  aggregate : A -> R -> A;
  agg_get : A -> B
}.
Arguments agg_init {A B}. Arguments aggregate {A B}. Arguments agg_get {A B}.

(** [aggregation_last]: [m_latest{}] is the value-initialised [d]. *)
Definition aggregation_last (d : R) : aggregation R R :=
  {| agg_init := d; aggregate := fun _ r => r; agg_get := fun a => a |}.

Definition aggregation_collation : aggregation (list R) (list R) :=
  {| agg_init := []; aggregate := fun a r => a ++ [r]; agg_get := fun a => a |}.

Definition aggregation_counter : aggregation nat nat :=
  {| agg_init := 0; aggregate := fun a _ => S a; agg_get := fun a => a |}.

Definition aggregation_void : aggregation unit unit :=
  {| agg_init := tt; aggregate := fun _ _ => tt; agg_get := fun a => a |}.

Definition condition_all : R -> bool := fun _ => true.

(** [condition_while<Result, T>]: [result == T]. *)
Definition condition_while (eqb : R -> R -> bool) (T : R) : R -> bool :=
  fun r => eqb r T.

(** [sig.emit<Aggregation, Controller>(args...)] called from outside any
    slot of the signal. *)
Definition signal_emit {A B : Type} (fuel : nat) (ctrl : R -> bool)
  (ag : aggregation A B) (w : world) : result B :=
  match emit fuel 0 ctrl (aggregate ag) (agg_init ag) w with
  | Ok a w' => Ok (agg_get ag a) w'
  | Exn w' => Exn w'
  | UB => UB
  | NoFuel => NoFuel
  end.

(** One iteration of the [for] loop of [emit]. *)
Definition loop_body (fuel nest : nat) (ctrl : R -> bool) {A : Type} (agg : A -> R -> A)
  (ok : bool) (acc : A) (a : nat) (n : node) (w1 : world) : result (bool * A) :=
  match m_function n with
  | None => Ok (ok, acc) w1
  | Some (body, v) =>
      match exec_cmds fuel (S nest) body
              (emit_event w1 (Invoked a (m_recursionDepth (sig w1)) (S nest))) with
      | Ok _ w2 => Ok (ctrl v, agg acc v) w2
      | Exn w2 => Exn w2
      | UB => UB
      | NoFuel => NoFuel
      end
  end.

End Signals.

Arguments cmd R : clear implicits.
Arguments Ok {R X}. Arguments Exn {R X}. Arguments UB {R X}. Arguments NoFuel {R X}.
Arguments agg_init {R A B}. Arguments aggregate {R A B}. Arguments agg_get {R A B}.

(** ** [~signal()], [connection] and [scoped_connection] *)

Section Lifetime.

Context {R : Type}.

(** Outcome of a loop run with fuel: it finished, it hit undefined
    behaviour, or it was still running when the fuel ran out. *)
Inductive outcome (X : Type) : Type :=
| Finished (x : X)
| Crashed
| Stuck.
Arguments Finished {X}. Arguments Crashed {X}. Arguments Stuck {X}.

(** [while ( m_head->next() != m_head.get() ) disconnect(m_head->next());] *)
Fixpoint dtor_loop (fuel h : nat) (s : @signal R) : outcome (@signal R) :=
  match fuel with
  | 0 => Stuck
  | S fuel' =>
      let nxt := first_of h (ring s) in
      if nxt =? h then Finished s
      else match disconnect_id nxt s with
           | Some (_, s') => dtor_loop fuel' h s'
           | None => Crashed
           end
  end.

(** [virtual ~signal()]: the state the loop leaves before [m_head]
    releases the sentinel. *)
Definition signal_dtor (fuel : nat) (s : @signal R) : outcome (@signal R) :=
  match m_head s with
  | None => Finished s
  | Some h => dtor_loop fuel h s
  end.

(** [connection::connected()] and [scoped_connection::connected()]:
    [m_con.first->connected(m_con.second)], through the signal at address
    [m_con.first] in the store [sigs]; no signal there ([nullptr], or a
    destroyed signal) is undefined behaviour, [None]. *)
Definition connection_connected (sigs : nat -> option (@signal R)) (con : connection_handler)
  : option bool :=
  match sigs (fst con) with
  | Some s => Some (connected_id (snd con) s)
  | None => None
  end.

(** [connection::disconnect()], also run by [~scoped_connection()]:
    [m_con.first->disconnect(m_con.second)], updating the store. *)
Definition connection_disconnect (sigs : nat -> option (@signal R)) (con : connection_handler)
  : option (bool * (nat -> option (@signal R))) :=
  match sigs (fst con) with
  | Some s =>
      match disconnect_id (snd con) s with
      | Some (b, s') => Some (b, fun a => if a =? fst con then Some s' else sigs a)
      | None => None
      end
  | None => None
  end.

End Lifetime.

Arguments Finished {X}. Arguments Crashed {X}. Arguments Stuck {X}.

(** ** Vocabulary for the proofs *)

Section Vocabulary.

Context {R : Type}.

(** A signal as its constructor and the operations leave it: the signal
    has an address, and the sentinel and the nodes sit at pairwise
    distinct addresses. *)
Definition wf (s : @signal R) : Prop :=
  self s <> 0 /\
  match m_head s with
  | None => ring s = []
  | Some h => NoDup (h :: addrs (ring s))
  end.

(** How a ring changes while a slot of the signal is running: nodes are
    never unlinked, their slots can only be cleared, and new nodes are
    appended. *)
Inductive evolves : list (@node R) -> list (@node R) -> Prop :=
| ev_nil l' : evolves [] l'
| ev_cons n n' l l' :
    addr n' = addr n ->
    (m_function n' = m_function n \/ m_function n' = None) ->
    evolves l l' -> evolves (n :: l) (n' :: l').

(** Some node's slot went from non-empty to empty. *)
Definition cleared (l l' : list (@node R)) : Prop :=
  exists a n n', lookup a l = Some n /\ m_function n <> None /\
                 lookup a l' = Some n' /\ m_function n' = None.

(** The effect of running code of a slot on its own signal. *)
Definition grows (s s' : @signal R) : Prop :=
  self s' = self s /\ m_head s' = m_head s /\
  m_recursionDepth s' = m_recursionDepth s /\
  evolves (ring s) (ring s') /\
  (m_deactivations s = true -> m_deactivations s' = true) /\
  (cleared (ring s) (ring s') -> m_deactivations s' = true).

(** The counter agrees with the number of nested invocations. *)
Definition depth_ok (e : event) : Prop :=
  match e with
  | Invoked _ d n | Step d n | Raised d n => d = n
  end.

Definition is_raise (e : event) : bool :=
  match e with Raised _ _ => true | _ => false end.

(** The nodes whose slot was invoked, in order. *)
Fixpoint invocations (es : list event) : list nat :=
  match es with
  | [] => []
  | Invoked a _ _ :: es' => a :: invocations es'
  | _ :: es' => invocations es'
  end.

Definition has_slot (n : @node R) : bool :=
  match m_function n with None => false | Some _ => true end.

(** A slot that does nothing on its signal before returning. *)
Definition quiet (n : @node R) : Prop :=
  match m_function n with None => True | Some (body, _) => body = [] end.

(** A reference reading of a pass over slots that do nothing on their
    signal: the nodes invoked, in ring order, the aggregate and the final
    [ok] of the controller. *)
Fixpoint quiet_pass {A : Type} (ctrl : R -> bool) (agg : A -> R -> A)
  (l : list (@node R)) (acc : A) : list nat * A * bool :=
  match l with
  | [] => ([], acc, true)
  | n :: l' =>
      match m_function n with
      | None => quiet_pass ctrl agg l' acc
      | Some (_, v) =>
          if ctrl v then
            let '(is, a, ok) := quiet_pass ctrl agg l' (agg acc v) in (addr n :: is, a, ok)
          else ([addr n], agg acc v, false)
      end
  end.

(** The (address, value) of each node with a non-empty slot, in ring order. *)
Fixpoint slot_results (l : list (@node R)) : list (nat * R) :=
  match l with
  | [] => []
  | n :: l' =>
      match m_function n with
      | None => slot_results l'
      | Some (_, v) => (addr n, v) :: slot_results l'
      end
  end.

(** The prefix of [rs] up to and including the first value [ctrl] rejects. *)
Fixpoint upto (ctrl : R -> bool) (rs : list (nat * R)) : list (nat * R) :=
  match rs with
  | [] => []
  | r :: rs' => if ctrl (snd r) then r :: upto ctrl rs' else [r]
  end.

(** The nodes invoked at nesting [k] (by the pass of one emission). *)
Fixpoint invoked_at (k : nat) (es : list event) : list nat :=
  match es with
  | [] => []
  | Invoked a _ k' :: es' => if k' =? k then a :: invoked_at k es' else invoked_at k es'
  | _ :: es' => invoked_at k es'
  end.

(** Every invocation logged is at a nesting above [k]. *)
Definition invoked_above (k : nat) (es : list event) : Prop :=
  Forall (fun e => match e with Invoked _ _ k' => k < k' | _ => True end) es.

(** A run from [w] that returned or raised only appended entries, each
    invocation among them at a nesting above [k]. *)
Definition runs_above {X : Type} (k : nat) (w : @world R) (r : @result R X) : Prop :=
  match r with
  | Ok _ w' | Exn w' => exists new, log w' = log w ++ new /\ invoked_above k new
  | UB | NoFuel => True
  end.

(** New log entries of a run that returned normally: each records a
    counter equal to the nesting (when the run started with the counter
    equal to the nesting), and none is a raised error. *)
Definition log_ok (nest : nat) (w w' : @world R) : Prop :=
  exists new, log w' = log w ++ new /\
    (m_recursionDepth (sig w) = nest -> Forall depth_ok new) /\
    Forall (fun e => is_raise e = false) new.

(** New log entries of a run that raised: the raise is the last entry. *)
Definition log_exn (nest : nat) (w w' : @world R) : Prop :=
  exists new e, log w' = log w ++ new ++ [e] /\ is_raise e = true /\
    (m_recursionDepth (sig w) = nest -> Forall depth_ok (new ++ [e])).

(** What running slot code or the emission loop guarantees. *)
Definition post {X : Type} (nest : nat) (w : @world R) (r : result X) : Prop :=
  match r with
  | Ok _ w' => wf (sig w') /\ grows (sig w) (sig w') /\ log_ok nest w w'
  | Exn w' => wf (sig w') /\ grows (sig w) (sig w') /\ log_exn nest w w'
  | UB | NoFuel => True
  end.

(** What a whole [emit] guarantees: the final sweep may unlink nodes, so
    the ring only [grows] when the emission is nested. *)
Definition emit_post {X : Type} (nest : nat) (w : @world R) (r : result X) : Prop :=
  match r with
  | Ok _ w' => wf (sig w') /\ log_ok nest w w' /\
               (m_recursionDepth (sig w) <> 0 -> grows (sig w) (sig w'))
  | Exn w' => wf (sig w') /\ grows (sig w) (sig w') /\ log_exn nest w w'
  | UB | NoFuel => True
  end.

End Vocabulary.

(** ** Histories of a signal, and the iterations of a pass *)

Section Histories.

Context {R : Type}.
Variable alloc : list nat -> nat.

(** The addresses of [l] still held by a node of the ring of [s]. *)
Definition keep_live (s : @signal R) (l : list nat) : list nat :=
  filter (fun a => existsb (Nat.eqb a) (addrs (ring s))) l.

(** [reach s N D]: the operations of the code, started from [signal()],
    can bring the signal to the state [s]; along the way, the nodes at
    the addresses [N] were connected with an empty function and the
    nodes at the addresses [D] were deactivated by a [disconnect] issued
    while the counter was non-zero (both lists keep only the addresses
    still held by a node of the ring).  The operations: [connect],
    [disconnect], the [ScopedIncrement] steps of [emit], and its sweep. *)
Inductive reach : @signal R -> list nat -> list nat -> Prop :=
| r_new this : this <> 0 -> reach (new_signal this) [] []
| r_connect s N D f : reach s N D ->
    reach (fst (connect alloc f s))
      (match f with None => snd (snd (connect alloc f s)) :: N | Some _ => N end) D
| r_disconnect s N D con b s' : reach s N D -> disconnect con s = Some (b, s') ->
    reach s' (keep_live s' N)
      (keep_live s' (if b && negb (m_recursionDepth s =? 0) then snd con :: D else D))
| r_incr s N D : reach s N D -> reach (incr s) N D
| r_decr s N D : reach s N D -> reach (decr s) N D
| r_sweep s N D : reach s N D ->
    reach (sweep s) (keep_live (sweep s) N) (keep_live (sweep s) D).

(** The signal left by a run of code (normal return or exception) is one
    that [reach] accounts for. *)
Definition reach_res {X : Type} (r : @result R X) : Prop :=
  match r with
  | Ok _ w' | Exn w' => exists N D, reach (sig w') N D
  | UB | NoFuel => True
  end.

(** [loop_path nest ctrl agg h st st']: the [for] loop of [emit] (the
    function [emit_loop], its state being the fuel, the cursor [node],
    [ok], the aggregation and the world) goes from the state [st] to the
    state [st'] by whole iterations: each one with the cursor off the
    sentinel and [ok] set, [ScopedIncrement], the slot call of
    [ConnectionInvoker::invoke] (skipped on an empty slot), the step
    [node = node->next()], and the decrement. *)
Inductive loop_path (nest : nat) (ctrl : R -> bool) {A : Type} (agg : A -> R -> A) (h : nat)
  : nat -> nat -> bool -> A -> world -> nat -> nat -> bool -> A -> world -> Prop :=
| lp_refl fuel node ok acc w : loop_path nest ctrl agg h fuel node ok acc w fuel node ok acc w
| lp_step fuel node ok acc w n ok1 acc1 w2 node1 fuel' node' ok' acc' w' :
    negb (node =? h) && ok = true ->
    lookup node (ring (incr (sig w))) = Some n ->
    loop_body alloc fuel nest ctrl agg ok acc node n (with_sig w (incr (sig w))) =
      Ok (ok1, acc1) w2 ->
    next_of h node (ring (sig w2)) = Some node1 ->
    loop_path nest ctrl agg h fuel node1 ok1 acc1 (with_sig w2 (decr (sig w2)))
      fuel' node' ok' acc' w' ->
    loop_path nest ctrl agg h (S fuel) node ok acc w fuel' node' ok' acc' w'.

End Histories.

Arguments loop_path {R} alloc nest ctrl {A} agg h _ _ _ _ _ _ _ _ _ _.

(** A concrete allocator: one past the highest live address.  Like
    [malloc], it reuses the address of a node freed at the top. *)
Definition next_free (l : list nat) : nat := S (list_max l).

(** ** Concrete runs (signal at address 100, [next_free] allocator) *)

(** A handle kept after its node was deleted, and a later [connect]. *)
Definition reuse_con : connection_handler :=
  snd (connect next_free (Some ([], 0)) (new_signal 100)).
Definition reuse_s1 : @signal nat :=
  fst (connect next_free (Some ([], 0)) (new_signal 100)).
Definition reuse_s2 : @signal nat :=
  match disconnect reuse_con reuse_s1 with Some (_, s) => s | None => reuse_s1 end.
Definition reuse_s3 : @signal nat :=
  fst (connect next_free (Some ([], 5)) reuse_s2).

(** [connect] of an empty [std::function]. *)
Definition null_slot_con : connection_handler :=
  snd (connect (R:=nat) next_free None (new_signal 100)).
Definition null_slot_s : @signal nat :=
  fst (connect (R:=nat) next_free None (new_signal 100)).

(** A slot (node 2) that connects a slot (it lands at node 3) and then
    disconnects it again. *)
Definition connect_then_drop : @signal nat :=
  fst (connect next_free (Some ([Connect (Some ([], 7)); Disconnect 100 3], 0))
         (new_signal 100)).

(** The emission of [connect_then_drop], collecting the results. *)
Definition drop_w0 : @world nat := mk_world connect_then_drop [].
Definition drop_run : result (list nat) :=
  emit next_free 20 0 condition_all (fun a r => a ++ [r]) [] drop_w0.
Definition drop_w' : @world nat :=
  match drop_run with Ok _ w => w | _ => drop_w0 end.

(** The same emission stopped before its final sweep. *)
Definition drop_loop_w : @world nat :=
  match emit_loop next_free 19 0 condition_all (fun a r => a ++ [r]) 1 2 true [] drop_w0 with
  | Ok _ w => w
  | _ => drop_w0
  end.

(** A slot (node 2) that connects a slot (it lands at node 3), under a
    controller that goes on while the slots return 0: the new slot
    disconnects itself and returns 7. *)
Definition connect_then_run : @signal nat :=
  fst (connect next_free (Some ([Connect (Some ([Disconnect 100 3], 7))], 0))
         (new_signal 100)).
Definition run_w0 : @world nat := mk_world connect_then_run [].
Definition run_loop_w : @world nat :=
  match emit_loop next_free 19 0 (condition_while Nat.eqb 0) (fun a r => a ++ [r]) 1 2 true []
          run_w0 with
  | Ok _ w => w
  | _ => run_w0
  end.

(** A slot (node 2) that disconnects the next slot (node 3), then raises. *)
Definition drop_then_throw : @signal nat :=
  fst (connect next_free (Some ([], 9))
    (fst (connect next_free (Some ([Disconnect 100 3; Throw], 0)) (new_signal 100)))).
Definition throw_w0 : @world nat := mk_world drop_then_throw [].

(** Four connections to a new signal, the second with an empty function;
    no slot touches the signal. *)
Definition quiet_s : @signal nat :=
  fst (connect next_free (Some ([], 4))
    (fst (connect next_free (Some ([], 5))
      (fst (connect next_free None
        (fst (connect next_free (Some ([], 3)) (new_signal 100)))))))).
Definition quiet_w : @world nat := mk_world quiet_s [].

(** A store holding the one signal [s], at its own address. *)
Definition store_of (s : @signal nat) : nat -> option (@signal nat) :=
  fun a => if a =? self s then Some s else None.

(** * Proofs *)

(** ** The ring operations on a list with distinct addresses *)

Section Ring.

Context {R : Type}.
Implicit Types (l : list (@node R)) (s : @signal R) (n : @node R).

Lemma scan_in h id l :
  ~ In h (addrs l) -> In id (addrs l) -> scan h id l = id.
Proof.
  induction l as [|n l IH]; cbn; intros Hh Hid; [contradiction|].
  destruct (Nat.eqb_spec (addr n) h); [exfalso; auto|].
  destruct (Nat.eqb_spec (addr n) id); cbn; [assumption|].
  apply IH; [auto|destruct Hid; [congruence|assumption]].
Qed.

Lemma scan_notin h id l :
  ~ In h (addrs l) -> ~ In id (addrs l) -> scan h id l = h.
Proof.
  induction l as [|n l IH]; cbn; intros Hh Hid; [reflexivity|].
  destruct (Nat.eqb_spec (addr n) h); [exfalso; auto|].
  destruct (Nat.eqb_spec (addr n) id); cbn; [exfalso; auto|].
  apply IH; auto.
Qed.

Lemma connected_scan_spec h id l :
  ~ In h (addrs l) -> connected_scan h id l = true <-> In id (addrs l).
Proof.
  induction l as [|n l IH]; cbn; intros Hh; [split; [discriminate|contradiction]|].
  destruct (Nat.eqb_spec (addr n) h); [exfalso; auto|].
  destruct (Nat.eqb_spec (addr n) id); [split; auto|].
  rewrite IH by auto. split; [auto|intros [H|H]; [congruence|assumption]].
Qed.

Lemma lookup_some a l n : lookup a l = Some n -> addr n = a /\ In n l.
Proof.
  induction l as [|m l IH]; cbn; [discriminate|].
  destruct (Nat.eqb_spec (addr m) a); intros H.
  - injection H as <-. auto.
  - destruct (IH H). auto.
Qed.

Lemma lookup_in a l : In a (addrs l) -> exists n, lookup a l = Some n /\ addr n = a.
Proof.
  induction l as [|m l IH]; cbn; [contradiction|].
  destruct (Nat.eqb_spec (addr m) a); intros H; [eauto|].
  apply IH. destruct H; [congruence|assumption].
Qed.

Lemma lookup_none a l : ~ In a (addrs l) -> lookup a l = None.
Proof.
  induction l as [|m l IH]; cbn; [reflexivity|].
  destruct (Nat.eqb_spec (addr m) a); intros H; [exfalso; auto|auto].
Qed.

Lemma lookup_app_cons a pre n suf :
  ~ In a (addrs pre) -> addr n = a -> lookup a (pre ++ n :: suf) = Some n.
Proof.
  induction pre as [|m pre IH]; cbn; intros Ha Hn.
  - rewrite Hn, Nat.eqb_refl. reflexivity.
  - destruct (Nat.eqb_spec (addr m) a); [exfalso; auto|auto].
Qed.

Lemma next_of_app_cons h a pre n suf :
  ~ In a (addrs pre) -> addr n = a ->
  next_of h a (pre ++ n :: suf) = Some (first_of h suf).
Proof.
  induction pre as [|m pre IH]; cbn; intros Ha Hn.
  - rewrite Hn, Nat.eqb_refl. reflexivity.
  - destruct (Nat.eqb_spec (addr m) a); [exfalso; auto|auto].
Qed.

Lemma addrs_app l l' : addrs (l ++ l') = addrs l ++ addrs l'.
Proof. apply map_app. Qed.

Lemma addrs_deactivate id l : addrs (deactivate id l) = addrs l.
Proof.
  unfold addrs in *. induction l as [|m l IH]; cbn; [reflexivity|].
  destruct (Nat.eqb_spec (addr m) id); cbn; congruence.
Qed.

Lemma lookup_deactivate id l :
  In id (addrs l) -> exists n, lookup id (deactivate id l) = Some n /\ m_function n = None.
Proof.
  induction l as [|m l IH]; cbn; [contradiction|].
  destruct (Nat.eqb_spec (addr m) id) as [E|E]; cbn; intros H.
  - rewrite E, Nat.eqb_refl. eauto.
  - destruct (Nat.eqb_spec (addr m) id); [congruence|].
    apply IH. destruct H; [congruence|assumption].
Qed.

Lemma extract_notin id l : NoDup (addrs l) -> ~ In id (addrs (extract id l)).
Proof.
  induction l as [|m l IH]; cbn; [auto|].
  intros Hnd. inversion Hnd as [|? ? Hm Hl]; subst.
  destruct (Nat.eqb_spec (addr m) id) as [E|E]; cbn.
  - subst. assumption.
  - intros [H|H]; [congruence|]. exact (IH Hl H).
Qed.

Lemma extract_keeps id l n : In n l -> addr n <> id -> In n (extract id l).
Proof.
  induction l as [|m l IH]; cbn; [contradiction|].
  intros [E|H] Hn.
  - subst m. destruct (Nat.eqb_spec (addr n) id); [contradiction|left; reflexivity].
  - destruct (Nat.eqb_spec (addr m) id); [assumption|right; auto].
Qed.

Lemma NoDup_addrs_extract id l : NoDup (addrs l) -> NoDup (addrs (extract id l)).
Proof.
  induction l as [|m l IH]; cbn; [auto|].
  intros Hnd. inversion Hnd as [|? ? Hm Hl]; subst.
  destruct (Nat.eqb_spec (addr m) id); [assumption|].
  cbn. constructor; [|auto].
  intros H. apply Hm. clear -H.
  induction l as [|k l IH]; cbn in *; [assumption|].
  destruct (Nat.eqb_spec (addr k) id); [right; assumption|].
  destruct H as [H|H]; [left; assumption|right; auto].
Qed.

(** *** [evolves] *)

Lemma evolves_refl l : evolves l l.
Proof. induction l; constructor; auto. Qed.

Lemma evolves_trans l1 l2 l3 : evolves l1 l2 -> evolves l2 l3 -> evolves l1 l3.
Proof.
  intros H12. revert l3.
  induction H12 as [l2|n1 n2 l1 l2 Ha Hf H12 IH]; intros l3 H23; [constructor|].
  inversion H23 as [|? n3 ? l3' Ha' Hf' H23']; subst.
  constructor; [congruence| |auto].
  destruct Hf as [Hf|Hf], Hf' as [Hf'|Hf']; rewrite ?Hf', ?Hf; auto.
Qed.

Lemma evolves_app l e : evolves l (l ++ e).
Proof. induction l; cbn; constructor; auto. Qed.

Lemma evolves_deactivate id l : evolves l (deactivate id l).
Proof.
  induction l as [|m l IH]; cbn; [constructor|].
  destruct (Nat.eqb_spec (addr m) id); constructor; cbn; auto using evolves_refl.
Qed.

Lemma evolves_addrs l l' : evolves l l' -> exists e, addrs l' = addrs l ++ e.
Proof.
  induction 1 as [l'|n n' l l' Ha Hf H [e IH]]; [exists (addrs l'); reflexivity|].
  exists e. unfold addrs in *. cbn. rewrite IH, Ha. reflexivity.
Qed.

Lemma evolves_lookup l l' a n :
  evolves l l' -> lookup a l = Some n ->
  exists n', lookup a l' = Some n' /\
             (m_function n' = m_function n \/ m_function n' = None).
Proof.
  induction 1 as [l'|m m' l l' Ha Hf H IH]; cbn; [discriminate|].
  rewrite Ha. destruct (Nat.eqb_spec (addr m) a); intros Hl.
  - injection Hl as <-. eauto.
  - auto.
Qed.

End Ring.

(** ** [connect], [disconnect], [connected] and the bookkeeping *)

Section Ops.

Context {R : Type}.
Variable alloc : list nat -> nat.
(** [new] returns an address that no live node occupies. *)
Hypothesis alloc_fresh : forall l, ~ In (alloc l) l.

Implicit Types (s : @signal R) (l : list (@node R)) (n : @node R) (w : @world R).

Lemma NoDup_snoc (l : list nat) a : NoDup l -> ~ In a l -> NoDup (l ++ [a]).
Proof.
  intros Hl Ha. apply NoDup_app; [assumption|repeat constructor; intros []|].
  intros x Hx [<-|[]]. contradiction.
Qed.

Lemma wf_nodup s h : wf s -> m_head s = Some h -> NoDup (h :: addrs (ring s)).
Proof. unfold wf. intros [_ H] E. rewrite E in H. exact H. Qed.

Lemma wf_head_notin s h : wf s -> m_head s = Some h -> ~ In h (addrs (ring s)).
Proof. intros Hw E. apply wf_nodup in E; [|assumption]. inversion E; assumption. Qed.

Lemma connect_eq f s h : m_head s = Some h ->
  connect alloc f s =
  (with_ring s (ring s ++ [mk_node (alloc (h :: addrs (ring s))) f]),
   (self s, alloc (h :: addrs (ring s)))).
Proof. intros E. unfold connect, lazy_head, live, insert. rewrite E. cbn. rewrite E. reflexivity. Qed.

Lemma lookup_app_some a l e n : lookup a l = Some n -> lookup a (l ++ e) = Some n.
Proof.
  induction l as [|m l IH]; cbn; [discriminate|].
  destruct (addr m =? a); auto.
Qed.

Lemma wf_connect f s : wf s -> wf (fst (connect alloc f s)).
Proof.
  intros Hw. destruct (m_head s) as [h|] eqn:E.
  - rewrite (connect_eq f s h E). unfold wf. cbn. split; [apply Hw|].
    rewrite E. unfold addrs. rewrite map_app. cbn.
    apply (NoDup_snoc (h :: addrs (ring s))); [apply (wf_nodup s h Hw E)|apply alloc_fresh].
  - destruct Hw as [Hs Hr]. rewrite E in Hr.
    unfold connect, lazy_head, live, insert, wf. rewrite E. cbn. rewrite Hr. cbn.
    split; [assumption|].
    repeat constructor; cbn; [|intros []].
    intros [H|[]]. apply (alloc_fresh [alloc []]). rewrite H. left. reflexivity.
Qed.

Lemma grows_refl s : grows s s.
Proof.
  unfold grows. repeat split; auto using evolves_refl.
  intros (a & n & n' & L & F & L' & F'). congruence.
Qed.

Lemma grows_trans s1 s2 s3 : grows s1 s2 -> grows s2 s3 -> grows s1 s3.
Proof.
  intros (Hs1 & Hh1 & Hd1 & He1 & Hm1 & Hc1) (Hs2 & Hh2 & Hd2 & He2 & Hm2 & Hc2).
  unfold grows. repeat split; try congruence; eauto using evolves_trans.
  intros (a & n1 & n3 & L1 & F1 & L3 & F3).
  destruct (evolves_lookup _ _ _ _ He1 L1) as (n2 & L2 & [F2|F2]).
  - apply Hc2. exists a, n2, n3. rewrite F2. auto.
  - apply Hm2, Hc1. exists a, n1, n2. auto.
Qed.

Lemma connect_grows f s : m_head s <> None -> grows s (fst (connect alloc f s)).
Proof.
  destruct (m_head s) as [h|] eqn:E; [intros _|contradiction].
  rewrite (connect_eq f s h E). unfold grows. cbn.
  repeat split; auto using evolves_app.
  intros (a & n & n' & L & F & L' & F').
  rewrite (lookup_app_some _ _ _ _ L) in L'. congruence.
Qed.

Lemma incl_addrs_extract id l : incl (addrs (extract id l)) (addrs l).
Proof.
  induction l as [|m l IH]; cbn; [apply incl_refl|].
  destruct (addr m =? id); [apply incl_tl, incl_refl|].
  cbn. apply incl_cons; [left; reflexivity|apply incl_tl, IH].
Qed.

Lemma wf_disconnect con s b s' : wf s -> disconnect con s = Some (b, s') -> wf s'.
Proof.
  intros Hw. unfold disconnect, disconnect_id.
  destruct (negb (fst con =? self s)); [congruence|].
  destruct (m_head s) as [h|] eqn:E; [|congruence].
  pose proof (wf_nodup s h Hw E) as Hnd. inversion Hnd as [|? ? Hh Hl]; subst.
  destruct (scan h (snd con) (ring s) =? snd con); [|congruence].
  destruct (m_recursionDepth s =? 0).
  - destruct (scan h (snd con) (ring s) =? h); [discriminate|].
    intros H; injection H as <- <-. unfold wf. cbn. rewrite E. split; [apply Hw|].
    constructor; [|apply NoDup_addrs_extract; assumption].
    intros Hin. apply Hh, (incl_addrs_extract _ _ _ Hin).
  - intros H; injection H as <- <-. unfold wf. cbn. rewrite E.
    split; [apply Hw|]. fold (addrs (deactivate (scan h (snd con) (ring s)) (ring s))).
    rewrite addrs_deactivate. assumption.
Qed.

Lemma disconnect_grows con s b s' :
  m_recursionDepth s <> 0 -> disconnect con s = Some (b, s') -> grows s s'.
Proof.
  intros Hd. unfold disconnect, disconnect_id.
  destruct (negb (fst con =? self s)); [intros H; injection H as _ <-; apply grows_refl|].
  destruct (m_head s) as [h|] eqn:E; [|intros H; injection H as _ <-; apply grows_refl].
  destruct (scan h (snd con) (ring s) =? snd con);
    [|intros H; injection H as _ <-; apply grows_refl].
  destruct (Nat.eqb_spec (m_recursionDepth s) 0); [contradiction|].
  intros H; injection H as _ <-. unfold grows. cbn.
  repeat split; auto using evolves_deactivate.
Qed.

Lemma sweep_ring_incl l : incl (addrs (sweep_ring l)) (addrs l).
Proof.
  induction l as [|m l IH]; cbn; [apply incl_refl|].
  destruct (m_function m); cbn; [apply incl_cons; [left; reflexivity|apply incl_tl, IH]|].
  apply incl_tl, IH.
Qed.

Lemma NoDup_sweep_ring l : NoDup (addrs l) -> NoDup (addrs (sweep_ring l)).
Proof.
  induction l as [|m l IH]; cbn; [auto|].
  intros Hnd. inversion Hnd as [|? ? Hm Hl]; subst.
  destruct (m_function m); cbn; [|auto].
  constructor; [|auto]. intros Hin. apply Hm, (sweep_ring_incl _ _ Hin).
Qed.

Lemma wf_sweep s : wf s -> wf (sweep s).
Proof.
  unfold wf, sweep. cbn. intros [Hs Hr]. split; [assumption|].
  destruct (m_head s) as [h|]; [|rewrite Hr; reflexivity].
  inversion Hr as [|? ? Hh Hl]; subst. constructor; [|apply NoDup_sweep_ring; assumption].
  intros Hin. apply Hh, (sweep_ring_incl _ _ Hin).
Qed.

Lemma wf_with_depth s d : wf s -> wf (with_depth s d).
Proof. unfold wf. cbn. auto. Qed.

Lemma grows_incr_decr s s2 : grows (incr s) s2 -> grows s (decr s2).
Proof.
  unfold grows, incr, decr, with_depth. cbn.
  intros (Hs & Hh & Hd & He & Hm & Hc). rewrite Hd. auto 10.
Qed.

End Ops.

(** ** The emission interpreter *)

Section Interp.

Context {R : Type}.
Variable alloc : list nat -> nat.
Hypothesis alloc_fresh : forall l, ~ In (alloc l) l.

Implicit Types (s : @signal R) (w : @world R).

Lemma grows_depth s s' : grows s s' -> m_recursionDepth s' = m_recursionDepth s.
Proof. intros (_ & _ & H & _). exact H. Qed.

Lemma grows_head s s' : grows s s' -> m_head s' = m_head s.
Proof. intros (_ & H & _). exact H. Qed.

Lemma log_ok_refl nest w : log_ok nest w w.
Proof. exists []. rewrite app_nil_r. repeat split; constructor. Qed.

Lemma log_ok_step nest w w1 e :
  log w1 = log w ++ [e] -> (m_recursionDepth (sig w) = nest -> depth_ok e) ->
  is_raise e = false -> log_ok nest w w1.
Proof. intros L D Er. exists [e]. repeat split; auto. Qed.

Lemma log_ok_trans nest w1 w2 w3 :
  m_recursionDepth (sig w2) = m_recursionDepth (sig w1) ->
  log_ok nest w1 w2 -> log_ok nest w2 w3 -> log_ok nest w1 w3.
Proof.
  intros Hd (n1 & L1 & D1 & R1) (n2 & L2 & D2 & R2). exists (n1 ++ n2).
  rewrite L2, L1, app_assoc. split; [reflexivity|split].
  - intros H. apply Forall_app. split; [auto|apply D2; congruence].
  - apply Forall_app. auto.
Qed.

Lemma log_exn_trans nest w1 w2 w3 :
  m_recursionDepth (sig w2) = m_recursionDepth (sig w1) ->
  log_ok nest w1 w2 -> log_exn nest w2 w3 -> log_exn nest w1 w3.
Proof.
  intros Hd (n1 & L1 & D1 & R1) (n2 & e & L2 & Ee & D2). exists (n1 ++ n2), e.
  rewrite L2, L1, !app_assoc. split; [reflexivity|split; [assumption|]].
  intros H. rewrite <- app_assoc. apply Forall_app. split; [auto|apply D2; congruence].
Qed.

Lemma post_compose {X : Type} nest w w1 (r : result X) :
  grows (sig w) (sig w1) -> log_ok nest w w1 -> post nest w1 r -> post nest w r.
Proof.
  intros G L. destruct r as [x w2|w2| |]; cbn; auto.
  - intros (W & G2 & L2). split; [assumption|split; [eauto using grows_trans|]].
    apply (log_ok_trans _ _ w1); auto using grows_depth.
  - intros (W & G2 & L2). split; [assumption|split; [eauto using grows_trans|]].
    apply (log_exn_trans _ _ w1); auto using grows_depth.
Qed.

Lemma log_ok_invoke nest w w1 w2 a :
  log w1 = log w ++ [Invoked a (m_recursionDepth (sig w1)) (S nest)] ->
  m_recursionDepth (sig w1) = S (m_recursionDepth (sig w)) ->
  log_ok (S nest) w1 w2 -> log_ok nest w w2.
Proof.
  intros L1 D1 (n & L & D & Rr). exists (Invoked a (m_recursionDepth (sig w1)) (S nest) :: n).
  rewrite L, L1, <- app_assoc. split; [reflexivity|split].
  - intros H. constructor; [cbn; congruence|apply D; congruence].
  - constructor; auto.
Qed.

Lemma log_exn_invoke nest w w1 w2 a :
  log w1 = log w ++ [Invoked a (m_recursionDepth (sig w1)) (S nest)] ->
  m_recursionDepth (sig w1) = S (m_recursionDepth (sig w)) ->
  log_exn (S nest) w1 w2 -> log_exn nest w w2.
Proof.
  intros L1 D1 (n & e & L & Ee & D). exists (Invoked a (m_recursionDepth (sig w1)) (S nest) :: n), e.
  rewrite L, L1, <- app_assoc. split; [reflexivity|split; [assumption|]].
  intros H. constructor; [cbn; congruence|apply D; congruence].
Qed.


(** *** Unfolding the interpreter one step *)

Lemma exec_cmds_nil fuel nest w : exec_cmds alloc (S fuel) nest [] w = Ok tt w.
Proof. reflexivity. Qed.

Lemma exec_cmds_connect fuel nest f cs w :
  exec_cmds alloc (S fuel) nest (Connect f :: cs) w =
  exec_cmds alloc fuel nest cs
    (with_sig (emit_event w (Step (m_recursionDepth (sig w)) nest)) (fst (connect alloc f (sig w)))).
Proof. reflexivity. Qed.

Lemma exec_cmds_disconnect fuel nest sg id cs w :
  exec_cmds alloc (S fuel) nest (Disconnect sg id :: cs) w =
  match disconnect (sg, id) (sig w) with
  | Some (_, s') =>
      exec_cmds alloc fuel nest cs (with_sig (emit_event w (Step (m_recursionDepth (sig w)) nest)) s')
  | None => UB
  end.
Proof. reflexivity. Qed.

Lemma exec_cmds_emit fuel nest ctrl cs w :
  exec_cmds alloc (S fuel) nest (Emit ctrl :: cs) w =
  match emit alloc fuel nest ctrl (fun _ _ => tt) tt
          (emit_event w (Step (m_recursionDepth (sig w)) nest)) with
  | Ok _ w' => exec_cmds alloc fuel nest cs w'
  | Exn w' => Exn w'
  | UB => UB
  | NoFuel => NoFuel
  end.
Proof. reflexivity. Qed.

Lemma exec_cmds_throw fuel nest cs w :
  exec_cmds alloc (S fuel) nest (Throw :: cs) w =
  Exn (emit_event (emit_event w (Step (m_recursionDepth (sig w)) nest))
         (Raised (m_recursionDepth (sig w)) nest)).
Proof. reflexivity. Qed.

Lemma emit_loop_stop fuel nest ctrl A (agg : A -> R -> A) h node ok acc w :
  negb (node =? h) && ok = false ->
  emit_loop alloc (S fuel) nest ctrl agg h node ok acc w = Ok (acc, ok) w.
Proof. intros E. cbn. rewrite E. reflexivity. Qed.

Lemma emit_loop_step fuel nest ctrl A (agg : A -> R -> A) h node ok acc w :
  negb (node =? h) && ok = true ->
  emit_loop alloc (S fuel) nest ctrl agg h node ok acc w =
  match lookup node (ring (incr (sig w))) with
  | None => UB
  | Some n =>
      match loop_body alloc fuel nest ctrl agg ok acc node n (with_sig w (incr (sig w))) with
      | Ok (ok', acc') w2 =>
          match next_of h node (ring (sig w2)) with
          | None => UB
          | Some node' => emit_loop alloc fuel nest ctrl agg h node' ok' acc'
                            (with_sig w2 (decr (sig w2)))
          end
      | Exn w2 => Exn (with_sig w2 (decr (sig w2)))
      | UB => UB
      | NoFuel => NoFuel
      end
  end.
Proof.
  intros E. change (emit_loop alloc (S fuel) nest ctrl agg h node ok acc w) with
    (if negb (node =? h) && ok then
      let w1 := with_sig w (incr (sig w)) in
      match lookup node (ring (sig w1)) with
      | None => UB
      | Some n =>
        match loop_body alloc fuel nest ctrl agg ok acc node n w1 with
        | Ok (ok', acc') w2 =>
            match next_of h node (ring (sig w2)) with
            | None => UB
            | Some node' =>
                emit_loop alloc fuel nest ctrl agg h node' ok' acc' (with_sig w2 (decr (sig w2)))
            end
        | Exn w2 => Exn (with_sig w2 (decr (sig w2)))
        | UB => UB
        | NoFuel => NoFuel
        end
      end
    else Ok (acc, ok) w).
  rewrite E. reflexivity.
Qed.

Lemma emit_S fuel nest ctrl A (agg : A -> R -> A) acc w :
  emit alloc (S fuel) nest ctrl agg acc w =
  match m_head (sig w) with
  | None => Ok acc w
  | Some h =>
      match emit_loop alloc fuel nest ctrl agg h (first_of h (ring (sig w))) true acc w with
      | Ok (acc', _) w' => Ok acc' (emit_tail w')
      | Exn w' => Exn w'
      | UB => UB
      | NoFuel => NoFuel
      end
  end.
Proof. reflexivity. Qed.

(** The invariant of the interpreter, by induction on the fuel: slot code
    running while the counter is non-zero and the emission loop only
    append nodes and clear slots, restore the counter, keep the signal
    well formed, and log as described by [log_ok] / [log_exn]. *)
Lemma interp_inv fuel :
  (forall nest cs w, wf (sig w) -> m_head (sig w) <> None -> m_recursionDepth (sig w) <> 0 ->
     post nest w (exec_cmds alloc fuel nest cs w)) /\
  (forall nest ctrl A (agg : A -> R -> A) h node ok acc w,
     wf (sig w) -> m_head (sig w) = Some h ->
     post nest w (emit_loop alloc fuel nest ctrl agg h node ok acc w)) /\
  (forall nest ctrl A (agg : A -> R -> A) acc w, wf (sig w) ->
     emit_post nest w (emit alloc fuel nest ctrl agg acc w)).
Proof.
  induction fuel as [|fuel IH]; [repeat split; intros; exact I|].
  destruct IH as (IHc & IHl & IHe).
  split; [|split].
  - intros nest cs w Hw Hh Hd. destruct cs as [|c cs].
    { rewrite exec_cmds_nil. split; [assumption|split; [apply grows_refl|apply log_ok_refl]]. }
    set (w0 := emit_event w (Step (m_recursionDepth (sig w)) nest)).
    assert (L0 : log_ok nest w w0).
    { apply (log_ok_step _ _ _ (Step (m_recursionDepth (sig w)) nest)); cbn; auto. }
    destruct c as [f|sg id|ctrl|].
    + rewrite exec_cmds_connect. fold w0.
      pose proof (connect_grows alloc f (sig w) Hh) as G.
      apply (post_compose nest w (with_sig w0 (fst (connect alloc f (sig w))))).
      * exact G.
      * exact L0.
      * apply IHc.
        -- apply wf_connect; assumption.
        -- change (m_head (fst (connect alloc f (sig w))) <> None).
           rewrite (grows_head _ _ G). assumption.
        -- change (m_recursionDepth (fst (connect alloc f (sig w))) <> 0).
           rewrite (grows_depth _ _ G). assumption.
    + rewrite exec_cmds_disconnect. fold w0.
      destruct (disconnect (sg, id) (sig w)) as [[b s']|] eqn:D; [|exact I].
      pose proof (disconnect_grows _ _ _ _ Hd D) as G.
      apply (post_compose nest w (with_sig w0 s')); [assumption|exact L0|].
      apply IHc.
      * apply (wf_disconnect _ _ _ _ Hw D).
      * change (m_head s' <> None). rewrite (grows_head _ _ G). assumption.
      * change (m_recursionDepth s' <> 0). rewrite (grows_depth _ _ G). assumption.
    + rewrite exec_cmds_emit. fold w0.
      pose proof (IHe nest ctrl unit (fun _ _ => tt) tt w0 Hw) as P.
      destruct (emit alloc fuel nest ctrl (fun _ _ => tt) tt w0) as [u w'|w'| |];
        try exact I.
      * destruct P as (W' & L' & G'). specialize (G' Hd).
        apply (post_compose nest w w'); [exact G'|apply (log_ok_trans _ _ w0); auto|].
        apply IHc; [assumption|rewrite (grows_head _ _ G'); assumption|
                    rewrite (grows_depth _ _ G'); assumption].
      * destruct P as (W' & G' & L'). split; [assumption|split; [exact G'|]].
        apply (log_exn_trans _ _ w0); auto.
    + rewrite exec_cmds_throw. cbn. split; [assumption|split; [apply grows_refl|]].
      exists [Step (m_recursionDepth (sig w)) nest], (Raised (m_recursionDepth (sig w)) nest).
      cbn. rewrite <- app_assoc. split; [reflexivity|split; [reflexivity|]].
      intros E. repeat constructor; cbn; assumption.
  - intros nest ctrl A agg h node ok acc w Hw Hh.
    destruct (negb (node =? h) && ok) eqn:E.
    2:{ rewrite emit_loop_stop by assumption.
        split; [assumption|split; [apply grows_refl|apply log_ok_refl]]. }
    rewrite emit_loop_step by assumption.
    destruct (lookup node (ring (incr (sig w)))) as [n|] eqn:L; [|exact I].
    set (w1 := with_sig w (incr (sig w))).
    assert (Hw1 : wf (sig w1)) by (apply wf_with_depth; assumption).
    assert (B : match loop_body alloc fuel nest ctrl agg ok acc node n w1 with
                | Ok _ w2 => wf (sig w2) /\ grows (sig w1) (sig w2) /\ log_ok nest w w2
                | Exn w2 => wf (sig w2) /\ grows (sig w1) (sig w2) /\ log_exn nest w w2
                | _ => True end).
    { unfold loop_body. destruct (m_function n) as [[body v]|].
      - set (w1' := emit_event w1 (Invoked node (m_recursionDepth (sig w1)) (S nest))).
        assert (P : post (S nest) w1' (exec_cmds alloc fuel (S nest) body w1')).
        { apply IHc; [exact Hw1|cbn; rewrite Hh; discriminate|cbn; discriminate]. }
        destruct (exec_cmds alloc fuel (S nest) body w1') as [u w2|w2| |]; try exact I.
        + destruct P as (W2 & G2 & L2). split; [exact W2|split; [exact G2|]].
          apply (log_ok_invoke nest w w1' w2 node); [reflexivity|reflexivity|exact L2].
        + destruct P as (W2 & G2 & L2). split; [exact W2|split; [exact G2|]].
          apply (log_exn_invoke nest w w1' w2 node); [reflexivity|reflexivity|exact L2].
      - split; [exact Hw1|split; [apply grows_refl|]].
        exists []. rewrite app_nil_r. repeat split; constructor. }
    destruct (loop_body alloc fuel nest ctrl agg ok acc node n w1) as [[ok' acc'] w2|w2| |];
      try exact I.
    + destruct B as (W2 & G2 & L2).
      destruct (next_of h node (ring (sig w2))) as [node'|]; [|exact I].
      assert (G3 : grows (sig w) (decr (sig w2))) by (apply grows_incr_decr; exact G2).
      apply (post_compose nest w (with_sig w2 (decr (sig w2)))); [exact G3|exact L2|].
      apply IHl; [apply wf_with_depth; exact W2|].
      change (m_head (decr (sig w2)) = Some h). rewrite (grows_head _ _ G3). exact Hh.
    + destruct B as (W2 & G2 & L2).
      split; [apply wf_with_depth; exact W2|split; [apply grows_incr_decr; exact G2|exact L2]].
  - intros nest ctrl A agg acc w Hw. rewrite emit_S.
    destruct (m_head (sig w)) as [h|] eqn:Hh.
    2:{ split; [assumption|split; [apply log_ok_refl|intros _; apply grows_refl]]. }
    pose proof (IHl nest ctrl A agg h (first_of h (ring (sig w))) true acc w Hw Hh) as P.
    destruct (emit_loop alloc fuel nest ctrl agg h (first_of h (ring (sig w))) true acc w)
      as [[acc' ok'] w'|w'| |]; try exact I; [|exact P].
    destruct P as (W' & G' & L'). unfold emit_tail.
    destruct ((m_recursionDepth (sig w') =? 0) && m_deactivations (sig w')) eqn:T.
    + split; [apply wf_sweep; assumption|split; [exact L'|]].
      intros Hd. rewrite (grows_depth _ _ G') in T.
      destruct (Nat.eqb_spec (m_recursionDepth (sig w)) 0); [contradiction|discriminate].
    + split; [assumption|split; [exact L'|intros _; exact G']].
Qed.

End Interp.

(** ** Facts about [disconnect] and [connected] *)

Section Handles.

Context {R : Type}.
Implicit Types (s : @signal R) (l : list (@node R)).

Lemma disconnect_other s con : fst con <> self s -> disconnect con s = Some (false, s).
Proof.
  intros H. unfold disconnect. destruct (Nat.eqb_spec (fst con) (self s)); [contradiction|].
  reflexivity.
Qed.

Lemma disconnect_absent s con : wf s -> ~ In (snd con) (live s) ->
  disconnect con s = Some (false, s).
Proof.
  intros Hw Hn. unfold disconnect, disconnect_id.
  destruct (negb (fst con =? self s)); [reflexivity|].
  unfold live in Hn. destruct (m_head s) as [h|] eqn:E; [|reflexivity].
  rewrite scan_notin by (try apply (wf_head_notin s h Hw E); intros H; apply Hn; right; exact H).
  destruct (Nat.eqb_spec h (snd con)) as [->|]; [exfalso; apply Hn; left; reflexivity|].
  reflexivity.
Qed.

Lemma disconnect_found s con h : wf s -> m_head s = Some h -> fst con = self s ->
  In (snd con) (addrs (ring s)) ->
  disconnect con s =
  Some (true, if m_recursionDepth s =? 0 then with_ring s (extract (snd con) (ring s))
              else with_deactivations (with_ring s (deactivate (snd con) (ring s))) true).
Proof.
  intros Hw E Hs Hin. unfold disconnect, disconnect_id.
  rewrite Hs, Nat.eqb_refl. cbn. rewrite E.
  pose proof (wf_head_notin s h Hw E) as Hh.
  rewrite (scan_in h (snd con) (ring s) Hh Hin), Nat.eqb_refl.
  destruct (m_recursionDepth s =? 0); [|reflexivity].
  destruct (Nat.eqb_spec (snd con) h) as [Ec|]; [exfalso; apply Hh; rewrite <- Ec; exact Hin|reflexivity].
Qed.

Lemma wf_head_some s x : wf s -> In x (addrs (ring s)) -> exists h, m_head s = Some h.
Proof.
  intros [_ Hr] Hx. destruct (m_head s) as [h|]; [eauto|]. rewrite Hr in Hx. contradiction.
Qed.

Lemma connected_spec s con : wf s ->
  connected con s = true <-> fst con = self s /\ In (snd con) (addrs (ring s)).
Proof.
  intros Hw. unfold connected, connected_id.
  destruct (Nat.eqb_spec (fst con) (self s)) as [E|E]; cbn.
  - destruct (m_head s) as [h|] eqn:Eh.
    + rewrite (connected_scan_spec h (snd con) (ring s) (wf_head_notin s h Hw Eh)). tauto.
    + destruct Hw as [_ Hr]. rewrite Eh in Hr. rewrite Hr. cbn. intuition discriminate.
  - split; [discriminate|intros [H _]; contradiction].
Qed.

Lemma wf_new_signal this : this <> 0 -> wf (@new_signal R this).
Proof. intros H. split; [exact H|reflexivity]. Qed.

Lemma deactivate_noop id l n :
  lookup id l = Some n -> m_function n = None -> deactivate id l = l.
Proof.
  induction l as [|m l IH]; cbn; [discriminate|].
  destruct (Nat.eqb_spec (addr m) id) as [E|E]; intros L F.
  - injection L as <-. destruct m as [a f]. cbn in *. subst. reflexivity.
  - rewrite (IH L F). reflexivity.
Qed.

End Handles.

Section Connecting.

Context {R : Type}.
Variable alloc : list nat -> nat.
Hypothesis alloc_fresh : forall l, ~ In (alloc l) l.
Implicit Types (s : @signal R).

(** [connect] appends one node, at a fresh address, behind the existing
    ones, and touches nothing else. *)
Lemma connect_spec f s : wf s ->
  let p := connect alloc f s in
  ring (fst p) = ring s ++ [mk_node (snd (snd p)) f] /\
  self (fst p) = self s /\ fst (snd p) = self s /\
  m_head (fst p) <> None /\
  (forall h, m_head s = Some h -> m_head (fst p) = Some h) /\
  m_recursionDepth (fst p) = m_recursionDepth s /\
  m_deactivations (fst p) = m_deactivations s /\
  ~ In (snd (snd p)) (addrs (ring s)) /\
  wf (fst p).
Proof.
  intros Hw p. assert (W : wf (fst p)) by (apply wf_connect; assumption).
  destruct (m_head s) as [h|] eqn:E.
  - unfold p in *. rewrite (connect_eq alloc f s h E) in *. cbn.
    split; [reflexivity|split; [reflexivity|split; [reflexivity|]]].
    split; [rewrite E; discriminate|split; [intros h' H'; congruence|]].
    split; [reflexivity|split; [reflexivity|split; [|exact W]]].
    intros H. apply (alloc_fresh (h :: addrs (ring s))). right. exact H.
  - destruct Hw as [Hs Hr]. rewrite E in Hr.
    unfold p, connect, lazy_head, live, insert in *. rewrite E in *. cbn in *. rewrite Hr in *.
    split; [reflexivity|split; [reflexivity|split; [reflexivity|]]].
    split; [discriminate|split; [intros h' [=]|]].
    split; [reflexivity|split; [reflexivity|split; [intros []|exact W]]].
Qed.

End Connecting.

Lemma next_free_fresh l : ~ In (next_free l) l.
Proof.
  unfold next_free. intros H.
  pose proof (proj1 (list_max_le l (list_max l)) (le_n _)) as F.
  rewrite Forall_forall in F. apply F in H. lia.
Qed.

Lemma wf_reuse_s1 : wf reuse_s1.
Proof. apply (wf_connect next_free next_free_fresh), wf_new_signal. discriminate. Qed.

(** ** Whole emissions *)

Section Emission.

Context {R : Type}.
Variable alloc : list nat -> nat.
Hypothesis alloc_fresh : forall l, ~ In (alloc l) l.
Implicit Types (s : @signal R) (w : @world R) (l : list (@node R)).

Lemma loop_post fuel nest ctrl A (agg : A -> R -> A) h node ok acc w :
  wf (sig w) -> m_head (sig w) = Some h ->
  post nest w (emit_loop alloc fuel nest ctrl agg h node ok acc w).
Proof. apply (interp_inv alloc alloc_fresh fuel). Qed.

Lemma emit_post_holds fuel nest ctrl A (agg : A -> R -> A) acc w :
  wf (sig w) -> emit_post nest w (emit alloc fuel nest ctrl agg acc w).
Proof. apply (interp_inv alloc alloc_fresh fuel). Qed.

Lemma emit_ok_shape fuel nest ctrl A (agg : A -> R -> A) acc w acc' w' :
  wf (sig w) -> emit alloc fuel nest ctrl agg acc w = Ok acc' w' ->
  (m_head (sig w) = None /\ acc' = acc /\ w' = w) \/
  exists h w1 ok, m_head (sig w) = Some h /\
    emit_loop alloc (pred fuel) nest ctrl agg h (first_of h (ring (sig w))) true acc w
      = Ok (acc', ok) w1 /\
    wf (sig w1) /\ grows (sig w) (sig w1) /\ log_ok nest w w1 /\ w' = emit_tail w1.
Proof.
  intros Hw. destruct fuel as [|fuel]; [discriminate|]. rewrite emit_S. cbn [pred].
  destruct (m_head (sig w)) as [h|] eqn:E.
  2:{ intros [=<- <-]. left. auto. }
  pose proof (loop_post fuel nest ctrl A agg h (first_of h (ring (sig w))) true acc w Hw E) as P.
  destruct (emit_loop alloc fuel nest ctrl agg h (first_of h (ring (sig w))) true acc w)
    as [[a ok] w1|w1| |] eqn:EL; try discriminate.
  intros [=<- <-]. destruct P as (W1 & G1 & L1). right. exists h, w1, ok.
  split; [reflexivity|split; [exact EL|split; [exact W1|split; [exact G1|split; [exact L1|reflexivity]]]]].
Qed.

Lemma sweep_ring_has_slot l : Forall (fun n => has_slot n = true) (sweep_ring l).
Proof.
  induction l as [|n l IH]; cbn; [constructor|].
  unfold has_slot at 1. destruct (m_function n) eqn:F; [|exact IH].
  constructor; [unfold has_slot; rewrite F; reflexivity|exact IH].
Qed.

Lemma emit_tail_sweeps w1 :
  m_recursionDepth (sig w1) = 0 -> m_deactivations (sig w1) = true ->
  Forall (fun n => has_slot n = true) (ring (sig (emit_tail w1))) /\
  m_deactivations (sig (emit_tail w1)) = false.
Proof.
  intros D F. unfold emit_tail. rewrite D, F. cbn.
  split; [apply sweep_ring_has_slot|reflexivity].
Qed.

Lemma emit_tail_depth w1 : m_recursionDepth (sig (emit_tail w1)) = m_recursionDepth (sig w1).
Proof. unfold emit_tail. destruct (_ && _); reflexivity. Qed.

Lemma emit_tail_log w1 : log (emit_tail w1) = log w1.
Proof. unfold emit_tail. destruct (_ && _); reflexivity. Qed.

Lemma emit_exn_head fuel nest ctrl A (agg : A -> R -> A) acc w w' :
  emit alloc fuel nest ctrl agg acc w = Exn w' -> m_head (sig w) <> None.
Proof.
  destruct fuel as [|fuel]; [discriminate|]. rewrite emit_S.
  destruct (m_head (sig w)); [discriminate|discriminate].
Qed.

(** An outermost emission that returns normally sweeps away every empty
    slot pending before it started. *)
Lemma emit_outer_clean fuel ctrl A (agg : A -> R -> A) acc w acc' w' :
  wf (sig w) -> m_recursionDepth (sig w) = 0 -> m_head (sig w) <> None ->
  m_deactivations (sig w) = true ->
  emit alloc fuel 0 ctrl agg acc w = Ok acc' w' ->
  Forall (fun n => has_slot n = true) (ring (sig w')) /\ m_deactivations (sig w') = false.
Proof.
  intros Hw D Hh F E. destruct (emit_ok_shape _ _ _ _ _ _ _ _ _ Hw E)
    as [(H & _)|(h & w1 & ok & _ & _ & _ & (_ & _ & D1 & _ & M1 & _) & _ & ->)];
    [contradiction|].
  apply emit_tail_sweeps; [congruence|auto].
Qed.

End Emission.

(** ** Passes over slots that do nothing on their signal *)

Section Traversal.

Context {R : Type}.
Variable alloc : list nat -> nat.
Implicit Types (s : @signal R) (w : @world R) (l : list (@node R)).

Lemma decr_incr s : decr (incr s) = s.
Proof. destruct s. reflexivity. Qed.

Lemma world_step w e :
  with_sig (emit_event (with_sig w (incr (sig w))) e)
           (decr (sig (emit_event (with_sig w (incr (sig w))) e))) =
  mk_world (sig w) (log w ++ [e]).
Proof. destruct w as [s l]. cbn. rewrite decr_incr. reflexivity. Qed.

Lemma world_skip w :
  with_sig (with_sig w (incr (sig w))) (decr (sig (with_sig w (incr (sig w))))) =
  mk_world (sig w) (log w).
Proof. destruct w as [s l]. cbn. rewrite decr_incr. reflexivity. Qed.

Lemma nodup_split h (pre : list (@node R)) n suf :
  NoDup (h :: addrs (pre ++ n :: suf)) ->
  addr n <> h /\ ~ In (addr n) (addrs pre) /\ NoDup (h :: addrs ((pre ++ [n]) ++ suf)).
Proof.
  rewrite <- app_assoc. cbn [app]. intros N. inversion N as [|? ? Hh Hl]; subst.
  rewrite addrs_app in Hh, Hl. cbn in Hh, Hl.
  split; [intros E; apply Hh; apply in_or_app; right; left; exact E|].
  split; [|exact N].
  apply NoDup_remove_2 in Hl. intros H. apply Hl. apply in_or_app. left. exact H.
Qed.

Lemma quiet_loop nest ctrl A (agg : A -> R -> A) h suf : forall pre fuel acc w,
  wf (sig w) -> m_head (sig w) = Some h -> ring (sig w) = pre ++ suf -> Forall quiet suf ->
  length suf < fuel ->
  emit_loop alloc fuel nest ctrl agg h (first_of h suf) true acc w =
  Ok (snd (fst (quiet_pass ctrl agg suf acc)), snd (quiet_pass ctrl agg suf acc))
     (mk_world (sig w) (log w ++ map (fun a => Invoked a (S (m_recursionDepth (sig w))) (S nest))
                                      (fst (fst (quiet_pass ctrl agg suf acc))))).
Proof.
  induction suf as [|n suf IH]; intros pre fuel acc w Hw Hh Hr Hq Hf.
  - destruct fuel as [|fuel]; [cbn in Hf; lia|]. cbn [first_of quiet_pass fst snd map].
    rewrite emit_loop_stop by (rewrite Nat.eqb_refl; reflexivity).
    rewrite app_nil_r. destruct w; reflexivity.
  - cbn [length] in Hf. destruct fuel as [|[|f]]; [lia|lia|].
    pose proof (wf_nodup _ _ Hw Hh) as N. rewrite Hr in N.
    destruct (nodup_split _ _ _ _ N) as (Hn & Hpre & N').
    inversion Hq as [|? ? Hqn Hqs]; subst.
    cbn [first_of]. rewrite emit_loop_step
      by (destruct (Nat.eqb_spec (addr n) h); [contradiction|reflexivity]).
    change (ring (incr (sig w))) with (ring (sig w)). rewrite Hr.
    rewrite lookup_app_cons by auto.
    unfold loop_body. unfold quiet in Hqn.
    destruct (m_function n) as [[body v]|] eqn:F.
    + subst body. rewrite exec_cmds_nil.
      change (ring (sig (emit_event (with_sig w (incr (sig w))) (Invoked (addr n) (m_recursionDepth (sig (with_sig w (incr (sig w))))) (S nest))))) with (ring (sig w)).
      rewrite Hr, next_of_app_cons by auto. rewrite world_step.
      cbn [quiet_pass]. rewrite F. destruct (ctrl v) eqn:Ev.
      * rewrite (IH (pre ++ [n])); cbn [sig log];
          [|exact Hw|exact Hh|rewrite Hr, <- app_assoc; reflexivity|exact Hqs|lia].
        destruct (quiet_pass ctrl agg suf (agg acc v)) as [[is a] ok]. cbn.
        rewrite <- app_assoc. reflexivity.
      * rewrite emit_loop_stop by (rewrite andb_false_r; reflexivity). reflexivity.
    + change (ring (sig (with_sig w (incr (sig w))))) with (ring (sig w)).
      rewrite Hr, next_of_app_cons by auto. rewrite world_skip.
      cbn [quiet_pass]. rewrite F.
      rewrite (IH (pre ++ [n])); cbn [sig log];
        [reflexivity|exact Hw|exact Hh|rewrite Hr, <- app_assoc; reflexivity|exact Hqs|lia].
Qed.

Lemma quiet_emit fuel nest ctrl A (agg : A -> R -> A) acc w h :
  wf (sig w) -> m_head (sig w) = Some h -> Forall quiet (ring (sig w)) ->
  length (ring (sig w)) < fuel ->
  emit alloc (S fuel) nest ctrl agg acc w =
  Ok (snd (fst (quiet_pass ctrl agg (ring (sig w)) acc)))
     (emit_tail (mk_world (sig w)
        (log w ++ map (fun a => Invoked a (S (m_recursionDepth (sig w))) (S nest))
                       (fst (fst (quiet_pass ctrl agg (ring (sig w)) acc)))))).
Proof.
  intros Hw Hh Hq Hf. rewrite emit_S, Hh.
  rewrite (quiet_loop nest ctrl A agg h (ring (sig w)) [] fuel acc w Hw Hh eq_refl Hq Hf).
  reflexivity.
Qed.

Lemma quiet_pass_all A (agg : A -> R -> A) l acc :
  fst (fst (quiet_pass (fun _ => true) agg l acc)) = addrs (filter has_slot l).
Proof.
  revert acc. induction l as [|n l IH]; intros acc; [reflexivity|].
  cbn [quiet_pass filter]. destruct (m_function n) as [[b v]|] eqn:F.
  - replace (has_slot n) with true by (unfold has_slot; rewrite F; reflexivity).
    specialize (IH (agg acc v)). destruct (quiet_pass _ agg l (agg acc v)) as [[is a] ok].
    cbn in *. rewrite IH. reflexivity.
  - replace (has_slot n) with false by (unfold has_slot; rewrite F; reflexivity). apply IH.
Qed.

Lemma invocations_map (l : list nat) d k :
  invocations (map (fun a => Invoked a d k) l) = l.
Proof. induction l; cbn; congruence. Qed.

End Traversal.

(** ** Nodes connected during a pass *)

Section Reach.

Context {R : Type}.
Variable alloc : list nat -> nat.
Hypothesis alloc_fresh : forall l, ~ In (alloc l) l.
Implicit Types (s : @signal R) (w : @world R) (l : list (@node R)).

Lemma first_of_hd h l : first_of h l = hd h (addrs l).
Proof. destruct l; reflexivity. Qed.

Lemma next_of_split h a l : forall pre suf,
  ~ In a pre -> addrs l = pre ++ a :: suf -> next_of h a l = Some (hd h suf).
Proof.
  induction l as [|m l IH]; intros pre suf Ha E.
  - destruct pre; discriminate.
  - cbn. destruct pre as [|p pre]; cbn in E; injection E as E1 E2.
    + rewrite E1, Nat.eqb_refl, first_of_hd. unfold addrs. rewrite E2. reflexivity.
    + destruct (Nat.eqb_spec (addr m) a); [exfalso; apply Ha; left; congruence|].
      apply (IH pre); [intros H; apply Ha; right; exact H|exact E2].
Qed.

Lemma loop_body_ok fuel nest ctrl A (agg : A -> R -> A) ok acc a n w1 ok2 acc2 w2 :
  wf (sig w1) -> m_head (sig w1) <> None -> m_recursionDepth (sig w1) <> 0 ->
  loop_body alloc fuel nest ctrl agg ok acc a n w1 = Ok (ok2, acc2) w2 ->
  wf (sig w2) /\ grows (sig w1) (sig w2) /\
  exists new1, log w2 = log w1 ++ new1 /\
    (m_function n = None -> ok2 = ok) /\
    (m_function n <> None -> In (Invoked a (m_recursionDepth (sig w1)) (S nest)) new1).
Proof.
  intros Hw Hh Hd. unfold loop_body. destruct (m_function n) as [[body v]|].
  - set (w1' := emit_event w1 (Invoked a (m_recursionDepth (sig w1)) (S nest))).
    pose proof (proj1 (interp_inv alloc alloc_fresh fuel) (S nest) body w1' Hw Hh Hd) as P.
    destruct (exec_cmds alloc fuel (S nest) body w1') as [u w|w| |]; try discriminate.
    intros [=<- <- <-]. destruct P as (W & G & (new & L & _)).
    split; [exact W|split; [exact G|]].
    exists (Invoked a (m_recursionDepth (sig w1)) (S nest) :: new).
    split; [rewrite L; cbn; rewrite <- app_assoc; reflexivity|].
    split; [discriminate|intros _; left; reflexivity].
  - intros [=<- <- <-]. split; [exact Hw|split; [apply grows_refl|]].
    exists []. split; [rewrite app_nil_r; reflexivity|].
    split; [reflexivity|intros H; contradiction].
Qed.

(** The state the [for] loop reaches by whole iterations determines the
    rest of the run. *)
Lemma loop_path_emit nest ctrl A (agg : A -> R -> A) h fuel node ok acc w fuel' node' ok' acc' w' :
  loop_path alloc nest ctrl agg h fuel node ok acc w fuel' node' ok' acc' w' ->
  emit_loop alloc fuel nest ctrl agg h node ok acc w =
  emit_loop alloc fuel' nest ctrl agg h node' ok' acc' w'.
Proof.
  induction 1 as [|fuel node ok acc w n ok1 acc1 w2 node1 fuel' node' ok' acc' w' T Lk B Nx P IH];
    [reflexivity|].
  rewrite emit_loop_step by exact T. rewrite Lk, B, Nx. exact IH.
Qed.

(** Every node that is ahead of the cursor, or not yet in the ring, when
    a pass resumes at the cursor, and that is in the ring when the pass
    ends: either the loop comes, by whole iterations, to a state with the
    cursor on that node and [ok] still set, and then the node is invoked
    if its slot is not empty at that moment; or the loop comes to a state
    where the controller has cleared [ok] with the cursor at or before
    that node, and stops there. *)
Lemma loop_reaches_path nest ctrl A (agg : A -> R -> A) h x fuel :
  forall node acc w acc' ok' w',
  wf (sig w) -> m_head (sig w) = Some h ->
  ((exists pre suf, addrs (ring (sig w)) = pre ++ node :: suf /\ In x (node :: suf)) \/
   ~ In x (addrs (ring (sig w)))) ->
  emit_loop alloc fuel nest ctrl agg h node true acc w = Ok (acc', ok') w' ->
  In x (addrs (ring (sig w'))) ->
  exists new, log w' = log w ++ new /\
    ((exists fuel_x acc_x w_x,
        loop_path alloc nest ctrl agg h fuel node true acc w fuel_x x true acc_x w_x /\
        forall n, lookup x (ring (sig w_x)) = Some n -> m_function n <> None ->
          exists d, In (Invoked x d (S nest)) new) \/
     (exists fuel_s node_s acc_s pre suf,
        loop_path alloc nest ctrl agg h fuel node true acc w fuel_s node_s false acc_s w' /\
        ok' = false /\ acc' = acc_s /\
        addrs (ring (sig w')) = pre ++ node_s :: suf /\ In x (node_s :: suf))).
Proof.
  induction fuel as [|fuel IH]; intros node acc w acc' ok' w' Hw Hh Hx E Hin; [discriminate|].
  pose proof (loop_post alloc alloc_fresh (S fuel) nest ctrl A agg h node true acc w Hw Hh) as P.
  rewrite E in P. destruct P as (W' & G' & (new & L & _)).
  exists new. split; [exact L|].
  destruct (negb (node =? h) && true) eqn:T.
  2:{ rewrite emit_loop_stop in E by exact T. injection E as E1 E2 E3. subst.
      exfalso. destruct Hx as [(pre & suf & Ea & _)|Hx]; [|contradiction].
      rewrite andb_true_r in T. destruct (Nat.eqb_spec node h) as [->|]; [|discriminate].
      apply (wf_head_notin _ _ Hw Hh). rewrite Ea. apply in_or_app. right. left. reflexivity. }
  rewrite emit_loop_step in E by exact T.
  destruct (lookup node (ring (incr (sig w)))) as [n|] eqn:Lk; [|discriminate].
  pose proof Lk as Lk0. change (ring (incr (sig w))) with (ring (sig w)) in Lk.
  set (w1 := with_sig w (incr (sig w))) in E.
  destruct (loop_body alloc fuel nest ctrl agg true acc node n w1) as [[ok2 acc2] w2|w2| |]
    eqn:B; try discriminate.
  destruct (loop_body_ok fuel nest ctrl A agg true acc node n w1 ok2 acc2 w2)
    as (W2 & G2 & (new1 & L1 & F1 & F2));
    [apply wf_with_depth; exact Hw|cbn; rewrite Hh; discriminate|cbn; discriminate|exact B|].
  destruct (next_of h node (ring (sig w2))) as [node'|] eqn:Nx; [|discriminate].
  pose proof Nx as Nx0.
  set (w3 := with_sig w2 (decr (sig w2))) in E.
  assert (G3 : grows (sig w) (sig w3)) by (apply grows_incr_decr; exact G2).
  assert (H3 : m_head (sig w3) = Some h) by (rewrite (grows_head _ _ G3); exact Hh).
  assert (W3 : wf (sig w3)) by (apply wf_with_depth; exact W2).
  pose proof (loop_post alloc alloc_fresh fuel nest ctrl A agg h node' ok2 acc2 w3 W3 H3) as P3.
  rewrite E in P3. destruct P3 as (_ & _ & (new2 & L2 & _)).
  assert (Enew : new = new1 ++ new2).
  { apply (app_inv_head (log w)). rewrite <- L, L2, app_assoc. f_equal. exact L1. }
  destruct (lookup_some _ _ _ Lk) as [An Inn].
  destruct (Nat.eqb_spec x node) as [->|Hxn].
  - left. exists (S fuel), acc, w. split; [apply lp_refl|].
    intros n' Lk' Fn'. rewrite Lk in Lk'. injection Lk' as <-.
    exists (m_recursionDepth (sig w1)). rewrite Enew. apply in_or_app. left. exact (F2 Fn').
  - assert (Split : exists pre suf, addrs (ring (sig w)) = pre ++ node :: suf /\
                      (In x suf \/ ~ In x (addrs (ring (sig w))))).
    { destruct Hx as [(pre & suf & Ea & [Ex|Ex])|Hx]; [congruence|eauto|].
      assert (Inode : In node (addrs (ring (sig w)))) by (rewrite <- An; apply in_map; exact Inn).
      destruct (in_split _ _ Inode) as (pre & suf & Es). eauto. }
    destruct Split as (pre & suf & Es & Hxs).
    destruct G2 as (_ & Hh2 & _ & Ev2 & _).
    destruct (evolves_addrs _ _ Ev2) as [e Ee]. change (ring (sig w1)) with (ring (sig w)) in Ee.
    assert (Es2 : addrs (ring (sig w2)) = pre ++ node :: (suf ++ e))
      by (rewrite Ee, Es, <- app_assoc; reflexivity).
    assert (Hh2' : m_head (sig w2) = Some h) by (rewrite Hh2; exact Hh).
    pose proof (wf_nodup _ _ W2 Hh2') as N2. apply NoDup_cons_iff in N2 as [_ N2'].
    rewrite Es2 in N2'. apply NoDup_remove_2 in N2'.
    rewrite (next_of_split h node (ring (sig w2)) pre (suf ++ e))
      in Nx by (try exact Es2; intros Hp; apply N2'; apply in_or_app; left; exact Hp).
    injection Nx as Nx.
    assert (Adv : In x (addrs (ring (sig w2))) ->
                  exists pre' suf', addrs (ring (sig w3)) = pre' ++ node' :: suf' /\
                                    In x (node' :: suf')).
    { intros Ix.
      assert (Ixs : In x (suf ++ e)).
      { rewrite Es2 in Ix. destruct Hxs as [Hxs|Hxs]; [apply in_or_app; left; exact Hxs|].
        rewrite Es in Hxs. apply in_app_or in Ix. destruct Ix as [Ix|[Ix|Ix]];
          [exfalso; apply Hxs, in_or_app; left; exact Ix|congruence|].
        apply in_app_or in Ix. destruct Ix as [Ix|Ix]; [|apply in_or_app; right; exact Ix].
        exfalso. apply Hxs, in_or_app. right. right. exact Ix. }
      destruct (suf ++ e) as [|b rest] eqn:Ese; [contradiction|].
      exists (pre ++ [node]), rest. cbn in Nx. subst node'.
      change (ring (sig w3)) with (ring (sig w2)). rewrite Es2, <- app_assoc. split; [reflexivity|].
      exact Ixs. }
    destruct ok2.
    + destruct (IH node' acc2 w3 acc' ok' w' W3 H3) as (new2' & L2' & Hd); [|exact E|exact Hin|].
      * destruct (in_dec Nat.eq_dec x (addrs (ring (sig w2)))) as [Ix|Ix];
          [left; exact (Adv Ix)|right; exact Ix].
      * assert (new2' = new2) as ->.
        { apply (app_inv_head (log w3)). rewrite <- L2, <- L2'. reflexivity. }
        destruct Hd as [(fx & ax & wx & Px & Ix)|(fs & ns & as_ & pre' & suf' & Ps & Rest)].
        -- left. exists fx, ax, wx. split.
           ++ exact (lp_step alloc nest ctrl agg h fuel node true acc w n true acc2 w2 node'
                       fx x true ax wx T Lk0 B Nx0 Px).
           ++ intros m Lm Fm. destruct (Ix m Lm Fm) as [d Id]. exists d.
              rewrite Enew. apply in_or_app. right. exact Id.
        -- right. exists fs, ns, as_, pre', suf'. split; [|exact Rest].
           exact (lp_step alloc nest ctrl agg h fuel node true acc w n true acc2 w2 node'
                    fs ns false as_ w' T Lk0 B Nx0 Ps).
    + destruct fuel as [|fuel]; [discriminate|].
      rewrite emit_loop_stop in E by (rewrite andb_false_r; reflexivity).
      injection E as <- <- <-.
      destruct (Adv Hin) as (pre' & suf' & Ea & Ia).
      right. exists (S fuel), node', acc2, pre', suf'.
      split; [|split; [reflexivity|split; [reflexivity|split; [exact Ea|exact Ia]]]].
      exact (lp_step alloc nest ctrl agg h (S fuel) node true acc w n false acc2 w2 node'
               (S fuel) node' false acc2 w3 T Lk0 B Nx0 (lp_refl _ _ _ _ _ _ _ _ _ _)).
Qed.
End Reach.

(** ** Tearing down, and handles after [connect] / [disconnect] *)

Section Teardown.

Context {R : Type}.

Lemma with_ring_id (s : @signal R) : with_ring s (ring s) = s.
Proof. destruct s; reflexivity. Qed.

(** At counter zero each turn of the destructor's loop deletes the first node. *)
Lemma dtor_loop_depth0 h (l : list (@node R)) : forall fuel s,
  m_head s = Some h -> ring s = l -> NoDup (h :: addrs l) -> m_recursionDepth s = 0 ->
  dtor_loop fuel h s = if length l <? fuel then Finished (with_ring s []) else Stuck.
Proof.
  induction l as [|n l IH]; intros fuel s Hh Hr Nd Hd; (destruct fuel as [|fuel]; [reflexivity|]).
  - cbn. rewrite Hr, Nat.eqb_refl. rewrite <- Hr, with_ring_id. reflexivity.
  - cbn [dtor_loop]. rewrite Hr. cbn [first_of].
    apply NoDup_cons_iff in Nd as [Nh Nd]. cbn in Nh.
    apply NoDup_cons_iff in Nd as [_ Nd].
    assert (Hn : addr n <> h) by (intros E; apply Nh; left; exact E).
    destruct (Nat.eqb_spec (addr n) h) as [|_]; [contradiction|].
    unfold disconnect_id. rewrite Hh, Hr. cbn [scan].
    destruct (Nat.eqb_spec (addr n) h) as [|_]; [contradiction|].
    rewrite Nat.eqb_refl. cbn [orb]. rewrite Nat.eqb_refl, Hd.
    destruct (Nat.eqb_spec (addr n) h) as [|_]; [contradiction|].
    cbn [extract]. replace (addr n =? addr n) with true by (symmetry; apply Nat.eqb_refl).
    change (length (n :: l) <? S fuel) with (length l <? fuel).
    cbn [Nat.eqb]. cbv beta iota. rewrite (IH fuel (with_ring s l)); try reflexivity; try assumption.
    constructor; [intros I; apply Nh; right; exact I|exact Nd].
Qed.

(** With a non-zero counter each turn only clears the first node's slot,
    so the loop goes on forever. *)
Lemma dtor_loop_nested h fuel : forall (s : @signal R) n l,
  m_head s = Some h -> ring s = n :: l -> addr n <> h -> m_recursionDepth s <> 0 ->
  dtor_loop fuel h s = Stuck.
Proof.
  induction fuel as [|fuel IH]; intros s n l Hh Hr Hn Hd; [reflexivity|].
  cbn [dtor_loop]. rewrite Hr. cbn [first_of].
  destruct (Nat.eqb_spec (addr n) h) as [|_]; [contradiction|].
  unfold disconnect_id. rewrite Hh, Hr. cbn [scan].
  destruct (Nat.eqb_spec (addr n) h) as [|_]; [contradiction|].
  rewrite Nat.eqb_refl. cbn [orb]. rewrite Nat.eqb_refl.
  destruct (Nat.eqb_spec (m_recursionDepth s) 0) as [|_]; [contradiction|].
  apply (IH _ (mk_node (addr n) None) l); try reflexivity; try assumption.
  cbn. rewrite Nat.eqb_refl. reflexivity.
Qed.

Lemma in_addrs_extract a id (l : list (@node R)) :
  a <> id -> In a (addrs (extract id l)) <-> In a (addrs l).
Proof.
  intros Ha. split; [apply incl_addrs_extract|].
  unfold addrs. rewrite !in_map_iff. intros (n & <- & In).
  exists n. split; [reflexivity|]. apply extract_keeps; assumption.
Qed.

Lemma bool_iff (b b' : bool) : (b = true <-> b' = true) -> b = b'.
Proof. destruct b, b'; intuition congruence. Qed.

(** At counter zero, [disconnect] answers [true] only for a node of the ring. *)
Lemma disconnect_true_in (s s' : @signal R) con :
  wf s -> m_recursionDepth s = 0 -> disconnect con s = Some (true, s') ->
  fst con = self s /\ In (snd con) (addrs (ring s)).
Proof.
  intros Hw Hd D. destruct (Nat.eq_dec (fst con) (self s)) as [Ef|Ef].
  2:{ rewrite disconnect_other in D by exact Ef. congruence. }
  split; [exact Ef|].
  destruct (in_dec Nat.eq_dec (snd con) (addrs (ring s))) as [I|I]; [exact I|].
  exfalso. unfold disconnect in D. rewrite Ef, Nat.eqb_refl in D. cbn in D.
  unfold disconnect_id in D. destruct (m_head s) as [h|] eqn:Hh; [|congruence].
  pose proof (wf_head_notin _ _ Hw Hh) as Nh.
  rewrite (scan_notin h (snd con) (ring s) Nh I) in D.
  destruct (Nat.eqb_spec h (snd con)) as [Ec|]; [|congruence].
  rewrite Hd, !Nat.eqb_refl in D. cbn in D. congruence.
Qed.

End Teardown.

(** ** What one pass of the emission loop invokes *)

Section Passes.

Context {R : Type}.
Variable alloc : list nat -> nat.

Lemma quiet_pass_upto A (agg : A -> R -> A) ctrl (l : list (@node R)) acc :
  fst (fst (quiet_pass ctrl agg l acc)) = map fst (upto ctrl (slot_results l)) /\
  snd (fst (quiet_pass ctrl agg l acc)) = fold_left agg (map snd (upto ctrl (slot_results l))) acc.
Proof.
  revert acc; induction l as [|n l IH]; intros acc; [split; reflexivity|].
  cbn [quiet_pass slot_results]. destruct (m_function n) as [[b v]|]; [|apply IH].
  cbn [upto snd]. destruct (ctrl v).
  - specialize (IH (agg acc v)).
    destruct (quiet_pass ctrl agg l (agg acc v)) as [[is a] ok]. cbn in *.
    destruct IH as [-> ->]. split; reflexivity.
  - split; reflexivity.
Qed.

Lemma slot_results_empty (l : list (@node R)) :
  Forall (fun n => m_function n = None) l -> slot_results l = [].
Proof. induction 1 as [|n l E _ IH]; [reflexivity|]. cbn. rewrite E. exact IH. Qed.

Lemma fold_collation (vs acc : list R) : fold_left (fun a r => a ++ [r]) vs acc = acc ++ vs.
Proof.
  revert acc; induction vs as [|v vs IH]; intros acc; cbn; [rewrite app_nil_r; reflexivity|].
  rewrite IH, <- app_assoc. reflexivity.
Qed.

Lemma last_indep (vs : list R) x y : vs <> [] -> last vs x = last vs y.
Proof.
  induction vs as [|v vs IH]; intros Hv; [contradiction|].
  destruct vs as [|v' vs]; [reflexivity|]. apply IH. discriminate.
Qed.

Lemma fold_last (vs : list R) d : fold_left (fun _ r => r) vs d = last vs d.
Proof.
  revert d; induction vs as [|v vs IH]; intros d; [reflexivity|].
  cbn [fold_left]. rewrite IH. destruct vs as [|r vs]; [reflexivity|].
  change (last (v :: r :: vs) d) with (last (r :: vs) d). apply last_indep. discriminate.
Qed.

Lemma invoked_at_app k (es es' : list event) :
  invoked_at k (es ++ es') = invoked_at k es ++ invoked_at k es'.
Proof.
  induction es as [|e es IH]; [reflexivity|].
  destruct e as [a d k'|d k'|d k']; cbn; try exact IH.
  destruct (k' =? k); [rewrite IH; reflexivity|exact IH].
Qed.

Lemma invoked_at_above k (es : list event) : invoked_above k es -> invoked_at k es = [].
Proof.
  induction 1 as [|e es E _ IH]; [reflexivity|].
  destruct e as [a d k'|d k'|d k']; cbn; try exact IH.
  destruct (Nat.eqb_spec k' k); [cbn in E; lia|exact IH].
Qed.

Lemma invoked_above_weaken k (es : list event) : invoked_above (S k) es -> invoked_above k es.
Proof. apply Forall_impl. intros [a d k'|d k'|d k']; auto. lia. Qed.

Lemma runs_above_app {X : Type} k (w w1 : @world R) (r : result X) new1 :
  log w1 = log w ++ new1 -> invoked_above k new1 -> runs_above k w1 r -> runs_above k w r.
Proof.
  intros L1 A1. destruct r as [x w'|w'| |]; cbn; try tauto;
    intros (new2 & L2 & A2); exists (new1 ++ new2);
    (split; [rewrite L2, L1, app_assoc; reflexivity|apply Forall_app; split; assumption]).
Qed.

(** Slot code at nesting [k] and emissions from it only log invocations at
    nestings above [k]. *)
Lemma invoked_nesting fuel :
  (forall nest cs (w : @world R), runs_above nest w (exec_cmds alloc fuel nest cs w)) /\
  (forall nest ctrl A (agg : A -> R -> A) h node ok acc w,
     runs_above nest w (emit_loop alloc fuel nest ctrl agg h node ok acc w)) /\
  (forall nest ctrl A (agg : A -> R -> A) acc (w : @world R),
     runs_above nest w (emit alloc fuel nest ctrl agg acc w)).
Proof.
  induction fuel as [|fuel IH]; [repeat split; intros; exact I|].
  destruct IH as (IHc & IHl & IHe).
  assert (Step0 : forall nest (w : @world R),
    log (emit_event w (Step (m_recursionDepth (sig w)) nest)) =
    log w ++ [Step (m_recursionDepth (sig w)) nest] /\
    invoked_above nest [Step (m_recursionDepth (sig w)) nest]).
  { intros; split; [reflexivity|repeat constructor]. }
  split; [|split].
  - intros nest cs w. destruct cs as [|c cs].
    { rewrite exec_cmds_nil. exists []. rewrite app_nil_r. split; [reflexivity|constructor]. }
    destruct (Step0 nest w) as [L0 A0].
    destruct c as [f|sg id|ctrl|].
    + rewrite exec_cmds_connect. eapply runs_above_app; [| |apply IHc]; [exact L0|exact A0].
    + rewrite exec_cmds_disconnect.
      destruct (disconnect (sg, id) (sig w)) as [[b s']|]; [|exact I].
      eapply runs_above_app; [| |apply IHc]; [exact L0|exact A0].
    + rewrite exec_cmds_emit.
      pose proof (IHe nest ctrl unit (fun _ _ => tt) tt
                    (emit_event w (Step (m_recursionDepth (sig w)) nest))) as P.
      destruct (emit alloc fuel nest ctrl (fun _ _ => tt) tt
                  (emit_event w (Step (m_recursionDepth (sig w)) nest))) as [u w'|w'| |];
        try exact I.
      * destruct P as (new1 & L1 & A1). rewrite L0, <- app_assoc in L1.
        eapply runs_above_app; [| |apply IHc]; [exact L1|apply Forall_app; split; assumption].
      * destruct P as (new1 & L1 & A1). rewrite L0 in L1.
        exists ([Step (m_recursionDepth (sig w)) nest] ++ new1).
        split; [rewrite L1, app_assoc; reflexivity|apply Forall_app; split; assumption].
    + rewrite exec_cmds_throw. cbn.
      exists [Step (m_recursionDepth (sig w)) nest; Raised (m_recursionDepth (sig w)) nest].
      split; [rewrite <- app_assoc; reflexivity|repeat constructor].
  - intros nest ctrl A agg h node ok acc w.
    destruct (negb (node =? h) && ok) eqn:E.
    2:{ rewrite emit_loop_stop by assumption.
        exists []. rewrite app_nil_r. split; [reflexivity|constructor]. }
    rewrite emit_loop_step by assumption.
    destruct (lookup node (ring (incr (sig w)))) as [n|]; [|exact I].
    set (w1 := with_sig w (incr (sig w))).
    assert (B : runs_above nest w (loop_body alloc fuel nest ctrl agg ok acc node n w1)).
    { unfold loop_body. destruct (m_function n) as [[body v]|].
      - set (e := Invoked node (m_recursionDepth (sig w1)) (S nest)).
        pose proof (IHc (S nest) body (emit_event w1 e)) as P.
        destruct (exec_cmds alloc fuel (S nest) body (emit_event w1 e)) as [u w2|w2| |];
          try exact I;
          (destruct P as (new1 & L1 & A1); exists (e :: new1);
           split; [rewrite L1; cbn; rewrite <- app_assoc; reflexivity|];
           constructor; [cbn; lia|apply invoked_above_weaken; exact A1]).
      - exists []. rewrite app_nil_r. split; [reflexivity|constructor]. }
    destruct (loop_body alloc fuel nest ctrl agg ok acc node n w1) as [[ok' acc'] w2|w2| |];
      try exact I.
    + destruct (next_of h node (ring (sig w2))) as [node'|]; [|exact I].
      destruct B as (new1 & L1 & A1).
      eapply runs_above_app; [| |apply IHl]; [exact L1|exact A1].
    + exact B.
  - intros nest ctrl A agg acc w. rewrite emit_S.
    destruct (m_head (sig w)) as [h|].
    2:{ exists []. rewrite app_nil_r. split; [reflexivity|constructor]. }
    pose proof (IHl nest ctrl A agg h (first_of h (ring (sig w))) true acc w) as P.
    destruct (emit_loop alloc fuel nest ctrl agg h (first_of h (ring (sig w))) true acc w)
      as [[acc' ok'] w'|w'| |]; try exact I; [|exact P].
    cbn. rewrite emit_tail_log. exact P.
Qed.

(** [aggregation_counter] counts the invocations of the pass itself. *)
Lemma loop_counts fuel : forall nest ctrl h node ok (acc : nat) (w : @world R) acc' ok' w',
  emit_loop alloc fuel nest ctrl (aggregate (R:=R) aggregation_counter) h node ok acc w
    = Ok (acc', ok') w' ->
  exists new, log w' = log w ++ new /\ acc' = acc + length (invoked_at (S nest) new).
Proof.
  induction fuel as [|fuel IH]; intros nest ctrl h node ok acc w acc' ok' w' E; [discriminate|].
  destruct (negb (node =? h) && ok) eqn:T.
  2:{ rewrite emit_loop_stop in E by exact T. injection E as <- <- <-.
      exists []. rewrite app_nil_r. split; [reflexivity|cbn; lia]. }
  rewrite emit_loop_step in E by exact T.
  destruct (lookup node (ring (incr (sig w)))) as [n|]; [|discriminate].
  unfold loop_body in E. set (w1 := with_sig w (incr (sig w))) in E.
  destruct (m_function n) as [[body v]|].
  - set (e := Invoked node (m_recursionDepth (sig w1)) (S nest)) in E.
    pose proof (proj1 (invoked_nesting fuel) (S nest) body (emit_event w1 e)) as P.
    destruct (exec_cmds alloc fuel (S nest) body (emit_event w1 e)) as [u w2|w2| |];
      try discriminate.
    destruct P as (new1 & L1 & A1).
    destruct (next_of h node (ring (sig w2))) as [node'|]; [|discriminate].
    apply IH in E as (new2 & L2 & C2).
    exists (e :: new1 ++ new2). split.
    + rewrite L2. cbn [log with_sig]. rewrite L1. cbn. rewrite <- !app_assoc. reflexivity.
    + rewrite C2. subst e. cbn [invoked_at]. rewrite Nat.eqb_refl, invoked_at_app.
      rewrite (invoked_at_above _ _ A1). cbn. lia.
  - cbv beta iota in E.
    destruct (next_of h node (ring (sig w1))) as [node'|]; [|discriminate].
    apply IH in E as (new2 & L2 & C2). exists new2. split; [exact L2|exact C2].
Qed.

End Passes.

Section Once.

Context {R : Type}.
Variable alloc : list nat -> nat.
Hypothesis alloc_fresh : forall l, ~ In (alloc l) l.

(** The cursor of the emission loop only moves forward: a pass invokes no
    node twice, and none of those before the cursor. *)
Lemma loop_once nest ctrl A (agg : A -> R -> A) h fuel :
  forall node ok acc (w : @world R) pre acc' ok' w',
  wf (sig w) -> m_head (sig w) = Some h ->
  (node = h \/ exists suf, addrs (ring (sig w)) = pre ++ node :: suf) ->
  emit_loop alloc fuel nest ctrl agg h node ok acc w = Ok (acc', ok') w' ->
  exists new, log w' = log w ++ new /\ NoDup (invoked_at (S nest) new) /\
    forall a, In a (invoked_at (S nest) new) -> ~ In a pre.
Proof.
  induction fuel as [|fuel IH]; intros node ok acc w pre acc' ok' w' Hw Hh Hc E;
    [discriminate|].
  destruct (negb (node =? h) && ok) eqn:T.
  2:{ rewrite emit_loop_stop in E by exact T. injection E as _ _ <-.
      exists []. rewrite app_nil_r. split; [reflexivity|split; [constructor|intros a []]]. }
  rewrite emit_loop_step in E by exact T.
  assert (Hnh : node <> h).
  { apply andb_true_iff in T as [T _]. apply negb_true_iff, Nat.eqb_neq in T. exact T. }
  destruct Hc as [->|(suf & Ea)]; [contradiction|].
  destruct (lookup node (ring (incr (sig w)))) as [n|] eqn:Lk; [|discriminate].
  set (w1 := with_sig w (incr (sig w))) in E.
  destruct (loop_body alloc fuel nest ctrl agg ok acc node n w1) as [[ok2 acc2] w2|w2| |]
    eqn:B; try discriminate.
  destruct (loop_body_ok alloc alloc_fresh fuel nest ctrl A agg ok acc node n w1 ok2 acc2 w2)
    as (W2 & G2 & _);
    [apply wf_with_depth; exact Hw|cbn; rewrite Hh; discriminate|cbn; discriminate|exact B|].
  assert (Inv : exists new1, log w2 = log w ++ new1 /\
            (invoked_at (S nest) new1 = [] \/ invoked_at (S nest) new1 = [node])).
  { unfold loop_body in B. destruct (m_function n) as [[body v]|].
    - set (e := Invoked node (m_recursionDepth (sig w1)) (S nest)) in B.
      pose proof (proj1 (invoked_nesting alloc fuel) (S nest) body (emit_event w1 e)) as P.
      destruct (exec_cmds alloc fuel (S nest) body (emit_event w1 e)) as [u w3|w3| |];
        try discriminate.
      injection B as _ _ <-. destruct P as (new1 & L1 & A1).
      exists (e :: new1). split; [rewrite L1; cbn; rewrite <- app_assoc; reflexivity|right].
      subst e. cbn [invoked_at]. rewrite Nat.eqb_refl, (invoked_at_above _ _ A1). reflexivity.
    - injection B as _ _ <-. exists []. rewrite app_nil_r. split; [reflexivity|left; reflexivity]. }
  destruct Inv as (new1 & L1 & I1).
  destruct (next_of h node (ring (sig w2))) as [node'|] eqn:Nx; [|discriminate].
  pose proof (wf_nodup _ _ Hw Hh) as Nd. rewrite Ea in Nd.
  assert (Npre : ~ In node pre).
  { intros I. apply NoDup_cons_iff in Nd as [_ Nd].
    apply NoDup_remove_2 in Nd. apply Nd. apply in_or_app. left. exact I. }
  destruct G2 as (_ & Hh2 & _ & Ev & _).
  apply evolves_addrs in Ev as (ext & Ex).
  change (ring (sig w1)) with (ring (sig w)) in Ex.
  rewrite Ea, <- app_assoc in Ex. cbn [app] in Ex.
  rewrite (next_of_split h node (ring (sig w2)) pre (suf ++ ext) Npre Ex) in Nx.
  injection Nx as <-.
  apply IH with (pre := pre ++ [node]) in E as (new2 & L2 & Nd2 & Out2).
  - exists (new1 ++ new2). split; [rewrite L2; cbn [log with_sig]; rewrite L1, app_assoc; reflexivity|].
    rewrite invoked_at_app.
    assert (Out2' : forall a, In a (invoked_at (S nest) new2) -> ~ In a pre /\ a <> node).
    { intros a I. specialize (Out2 a I). split.
      - intros I'. apply Out2, in_or_app. left. exact I'.
      - intros ->. apply Out2, in_or_app. right. left. reflexivity. }
    destruct I1 as [-> | ->].
    + split; [exact Nd2|]. intros a I. apply (Out2' a I).
    + split.
      * constructor; [intros I; apply (Out2' node I); reflexivity|exact Nd2].
      * intros a [<- | I]; [exact Npre|apply (Out2' a I)].
  - apply wf_with_depth. exact W2.
  - change (m_head (sig w2) = Some h). rewrite Hh2. exact Hh.
  - change (addrs (ring (sig w2))) with (addrs (ring (sig (with_sig w2 (decr (sig w2)))))) in Ex.
    destruct (suf ++ ext) as [|x rest]; [left; reflexivity|right].
    exists rest. rewrite Ex, <- app_assoc. reflexivity.
Qed.

End Once.


(** ** Empty slots along a history *)

Section HistoryProofs.

Context {R : Type}.
Variable alloc : list nat -> nat.
Hypothesis alloc_fresh : forall l, ~ In (alloc l) l.

Lemma keep_live_in (s : @signal R) l a :
  In a (keep_live s l) <-> In a l /\ In a (addrs (ring s)).
Proof.
  unfold keep_live. rewrite filter_In, existsb_exists.
  split; intros [H1 H2]; split; try exact H1.
  - destruct H2 as (b & Hb & E). apply Nat.eqb_eq in E. subst. exact Hb.
  - exists a. split; [exact H2|apply Nat.eqb_refl].
Qed.

Lemma keep_live_node (s : @signal R) l n :
  In n (ring s) -> (In (addr n) (keep_live s l) <-> In (addr n) l).
Proof.
  intros Hn. rewrite keep_live_in. split; [intros [H _]; exact H|].
  intros H. split; [exact H|apply in_map; exact Hn].
Qed.

Lemma keep_live_incl (s : @signal R) l : incl (keep_live s l) (addrs (ring s)).
Proof. intros a Ha. apply keep_live_in in Ha. apply Ha. Qed.

Lemma in_extract id (l : list (@node R)) n : In n (extract id l) -> In n l.
Proof.
  induction l as [|m l IH]; cbn; [contradiction|].
  destruct (addr m =? id); [right; exact H|].
  intros [H|H]; [left; exact H|right; exact (IH H)].
Qed.

Lemma in_deactivate id (l : list (@node R)) n : NoDup (addrs l) ->
  In n (deactivate id l) ->
  (In n l /\ addr n <> id) \/ (addr n = id /\ m_function n = None).
Proof.
  induction l as [|m l IH]; cbn; [contradiction|].
  intros Nd. inversion Nd as [|? ? Hm Hl]; subst.
  destruct (Nat.eqb_spec (addr m) id) as [E|E].
  - intros [<-|H].
    + right. split; [exact E|reflexivity].
    + left. split; [right; exact H|].
      intros En. apply Hm. rewrite E, <- En. apply in_map. exact H.
  - intros [<-|H].
    + left. split; [left; reflexivity|exact E].
    + destruct (IH Hl H) as [[H1 H2]|H1]; [left; split; [right; exact H1|exact H2]|right; exact H1].
Qed.

Lemma in_sweep_ring (l : list (@node R)) n :
  In n (sweep_ring l) -> In n l /\ m_function n <> None.
Proof.
  induction l as [|m l IH]; cbn; [contradiction|].
  destruct (m_function m) eqn:F.
  - intros [<-|H]; [split; [left; reflexivity|rewrite F; discriminate]|].
    destruct (IH H). split; [right|]; assumption.
  - intros H. destruct (IH H). split; [right|]; assumption.
Qed.

Lemma wf_addrs_nodup (s : @signal R) : wf s -> NoDup (addrs (ring s)).
Proof.
  intros [_ Hr]. destruct (m_head s) as [h|].
  - inversion Hr. assumption.
  - rewrite Hr. constructor.
Qed.

(** The three outcomes of [disconnect(handler)] that do not free the
    sentinel. *)
Lemma disconnect_cases con (s : @signal R) b s' :
  disconnect con s = Some (b, s') ->
  (b = false /\ s' = s) \/
  (b = true /\ m_recursionDepth s = 0 /\ s' = with_ring s (extract (snd con) (ring s))) \/
  (b = true /\ m_recursionDepth s <> 0 /\
   s' = with_deactivations (with_ring s (deactivate (snd con) (ring s))) true).
Proof.
  unfold disconnect, disconnect_id.
  destruct (negb (fst con =? self s)); [intros [=<- <-]; left; auto|].
  destruct (m_head s) as [h|]; [|intros [=<- <-]; left; auto].
  destruct (Nat.eqb_spec (scan h (snd con) (ring s)) (snd con)) as [Es|];
    [|intros [=<- <-]; left; auto].
  rewrite Es. destruct (Nat.eqb_spec (m_recursionDepth s) 0) as [Hd|Hd].
  - destruct (snd con =? h); [discriminate|]. intros [=<- <-]. right; left; auto.
  - intros [=<- <-]. right; right; auto.
Qed.

Lemma reach_wf s N D : reach alloc s N D -> @wf R s.
Proof.
  induction 1.
  - apply wf_new_signal. assumption.
  - apply (wf_connect alloc alloc_fresh). assumption.
  - apply (wf_disconnect con s b s'); assumption.
  - apply wf_with_depth. assumption.
  - apply wf_with_depth. assumption.
  - apply wf_sweep. assumption.
Qed.

(** Along any history, a node of the ring has an empty slot exactly when
    it was connected with an empty function or deactivated by a
    [disconnect] at a non-zero counter. *)
Lemma reach_empty (s : @signal R) N D : reach alloc s N D ->
  (forall n, In n (ring s) -> (m_function n = None <-> In (addr n) N \/ In (addr n) D)) /\
  incl N (addrs (ring s)) /\ incl D (addrs (ring s)).
Proof.
  intros Hr. pose proof (reach_wf _ _ _ Hr) as Hw. revert Hw.
  induction Hr as [this Ht|s N D f Hr IH|s N D con b s' Hr IH Dc|s N D Hr IH|s N D Hr IH
                  |s N D Hr IH]; intros Hw'.
  - split; [intros n []|split; intros a []].
  - pose proof (reach_wf _ _ _ Hr) as Hw. destruct (IH Hw) as (Hi & IN & ID).
    pose proof (connect_spec alloc alloc_fresh f s Hw) as Sp. cbv zeta in Sp.
    destruct Sp as (Er & _ & _ & _ & _ & _ & _ & Fresh & _).
    set (a := snd (snd (connect alloc f s))) in *. rewrite Er.
    unfold addrs at 1 2. rewrite map_app. fold (addrs (ring s)).
    split; [|split].
    + intros n Hn. apply in_app_or in Hn. destruct Hn as [Hn|[<-|[]]].
      * assert (Na : addr n <> a) by (intros E; apply Fresh; rewrite <- E; apply in_map; exact Hn).
        rewrite (Hi n Hn). destruct f as [g|]; [reflexivity|].
        cbn [In]. split; intros [H|H]; auto; destruct H as [H|H]; [congruence|auto].
      * cbn [m_function addr]. destruct f as [g|].
        -- split; [discriminate|]. intros [H|H]; exfalso; apply Fresh; auto.
        -- split; [intros _; left; left; reflexivity|reflexivity].
    + destruct f as [g|]; [apply incl_appl; exact IN|].
      apply incl_cons; [apply in_or_app; right; left; reflexivity|apply incl_appl; exact IN].
    + apply incl_appl. exact ID.
  - pose proof (reach_wf _ _ _ Hr) as Hw. destruct (IH Hw) as (Hi & IN & ID).
    split; [|split; apply keep_live_incl].
    destruct (disconnect_cases con s b s' Dc) as [(-> & ->)|[(-> & Hd & ->)|(-> & Hd & ->)]].
    + cbn [andb]. intros n Hn. rewrite !(keep_live_node s _ n Hn). exact (Hi n Hn).
    + rewrite Hd. cbn [andb negb Nat.eqb]. intros n Hn.
      rewrite !(keep_live_node _ _ n Hn). exact (Hi n (in_extract _ _ _ Hn)).
    + destruct (Nat.eqb_spec (m_recursionDepth s) 0) as [|_]; [contradiction|].
      cbn [andb negb]. intros n Hn. rewrite !(keep_live_node _ _ n Hn).
      destruct (in_deactivate (snd con) (ring s) n (wf_addrs_nodup s Hw) Hn)
        as [[Hn' Na]|[Ea En]].
      * rewrite (Hi n Hn'). cbn [In].
        split; intros [H|H]; auto; destruct H as [H|H]; [congruence|auto].
      * split; [intros _; right; left; symmetry; exact Ea|intros _; exact En].
  - exact (IH (reach_wf _ _ _ Hr)).
  - exact (IH (reach_wf _ _ _ Hr)).
  - destruct (IH (reach_wf _ _ _ Hr)) as (Hi & IN & ID).
    split; [|split; apply keep_live_incl].
    intros n Hn. rewrite !(keep_live_node _ _ n Hn).
    change (ring (sweep s)) with (sweep_ring (ring s)) in Hn.
    destruct (in_sweep_ring _ _ Hn) as [Hn' Fn].
    split; [intros E; contradiction|intros H; apply (Hi n Hn'); exact H].
Qed.

(** Slot code, the emission loop and [emit] leave the signal in a state
    that [reach] accounts for. *)
Lemma reach_interp fuel :
  (forall nest cs (w : @world R) N D, reach alloc (sig w) N D ->
     reach_res alloc (exec_cmds alloc fuel nest cs w)) /\
  (forall nest ctrl A (agg : A -> R -> A) h node ok acc w N D, reach alloc (sig w) N D ->
     reach_res alloc (emit_loop alloc fuel nest ctrl agg h node ok acc w)) /\
  (forall nest ctrl A (agg : A -> R -> A) acc w N D, reach alloc (sig w) N D ->
     reach_res alloc (emit alloc fuel nest ctrl agg acc w)).
Proof.
  induction fuel as [|fuel IH]; [repeat split; intros; exact I|].
  destruct IH as (IHc & IHl & IHe).
  split; [|split].
  - intros nest cs w N D Hr. destruct cs as [|c cs]; [exists N, D; exact Hr|].
    destruct c as [f|sg id|ctrl|].
    + rewrite exec_cmds_connect. eapply IHc. exact (r_connect alloc _ _ _ f Hr).
    + rewrite exec_cmds_disconnect.
      destruct (disconnect (sg, id) (sig w)) as [[b s']|] eqn:Dc; [|exact I].
      eapply IHc. exact (r_disconnect alloc _ _ _ _ _ _ Hr Dc).
    + rewrite exec_cmds_emit.
      pose proof (IHe nest ctrl unit (fun _ _ => tt) tt
                    (emit_event w (Step (m_recursionDepth (sig w)) nest)) N D Hr) as P.
      destruct (emit alloc fuel nest ctrl (fun _ _ => tt) tt
                  (emit_event w (Step (m_recursionDepth (sig w)) nest))) as [u w'|w'| |];
        try exact I; [|exact P].
      destruct P as (N' & D' & P). eapply IHc. exact P.
    + rewrite exec_cmds_throw. exists N, D. exact Hr.
  - intros nest ctrl A agg h node ok acc w N D Hr.
    destruct (negb (node =? h) && ok) eqn:T.
    2:{ rewrite emit_loop_stop by exact T. exists N, D. exact Hr. }
    rewrite emit_loop_step by exact T.
    destruct (lookup node (ring (incr (sig w)))) as [n|]; [|exact I].
    assert (B : reach_res alloc
                  (loop_body alloc fuel nest ctrl agg ok acc node n (with_sig w (incr (sig w))))).
    { unfold loop_body. destruct (m_function n) as [[body v]|].
      - pose proof (IHc (S nest) body
                      (emit_event (with_sig w (incr (sig w)))
                         (Invoked node (m_recursionDepth (incr (sig w))) (S nest)))
                      N D (r_incr alloc _ _ _ Hr)) as P.
        destruct (exec_cmds alloc fuel (S nest) body _) as [u w2|w2| |]; exact P.
      - exists N, D. exact (r_incr alloc _ _ _ Hr). }
    destruct (loop_body alloc fuel nest ctrl agg ok acc node n (with_sig w (incr (sig w))))
      as [[ok' acc'] w2|w2| |]; try exact I; destruct B as (N' & D' & B).
    + destruct (next_of h node (ring (sig w2))) as [node'|]; [|exact I].
      eapply IHl. exact (r_decr alloc _ _ _ B).
    + exists N', D'. exact (r_decr alloc _ _ _ B).
  - intros nest ctrl A agg acc w N D Hr. rewrite emit_S.
    destruct (m_head (sig w)) as [h|]; [|exists N, D; exact Hr].
    pose proof (IHl nest ctrl A agg h (first_of h (ring (sig w))) true acc w N D Hr) as P.
    destruct (emit_loop alloc fuel nest ctrl agg h (first_of h (ring (sig w))) true acc w)
      as [[acc' ok'] w'|w'| |]; try exact I; [|exact P].
    destruct P as (N' & D' & P). unfold emit_tail.
    destruct ((m_recursionDepth (sig w') =? 0) && m_deactivations (sig w'));
      [eexists; eexists; exact (r_sweep alloc _ _ _ P)|exists N', D'; exact P].
Qed.

End HistoryProofs.
(** * The claims *)

Section Claims.

Context {R : Type}.
Variable alloc : list nat -> nat.
Hypothesis alloc_fresh : forall l, ~ In (alloc l) l.
Implicit Types (s : @signal R).

(** C1 (amended).  [disconnect] decides by the handle's signal and
    address alone: it returns false and leaves the signal as it is when
    the handle names another signal or an address that no node of the
    ring (nor the sentinel) occupies; when a node of the ring sits at the
    address it returns true and, with the counter at zero, unlinks and
    frees that node, and otherwise clears its slot, keeps it linked and
    sets the deferred-deactivation flag. *)
Theorem disconnect_handle_cases s con :
  wf s ->
  ((fst con <> self s \/ ~ In (snd con) (live s)) -> disconnect con s = Some (false, s)) /\
  (fst con = self s -> In (snd con) (addrs (ring s)) -> m_recursionDepth s = 0 ->
     disconnect con s = Some (true, with_ring s (extract (snd con) (ring s))) /\
     ~ In (snd con) (addrs (extract (snd con) (ring s)))) /\
  (fst con = self s -> In (snd con) (addrs (ring s)) -> m_recursionDepth s <> 0 ->
     disconnect con s = Some (true, with_deactivations (with_ring s (deactivate (snd con) (ring s))) true) /\
     addrs (deactivate (snd con) (ring s)) = addrs (ring s) /\
     exists n, lookup (snd con) (deactivate (snd con) (ring s)) = Some n /\ m_function n = None).
Proof.
  intros Hw. split; [|split].
  - intros [H|H]; [apply disconnect_other; exact H|apply disconnect_absent; assumption].
  - intros Hs Hin Hd. destruct (wf_head_some s _ Hw Hin) as [h E].
    rewrite (disconnect_found s con h Hw E Hs Hin), Hd. split; [reflexivity|].
    apply extract_notin. pose proof (wf_nodup s h Hw E) as N. inversion N; assumption.
  - intros Hs Hin Hd. destruct (wf_head_some s _ Hw Hin) as [h E].
    rewrite (disconnect_found s con h Hw E Hs Hin).
    destruct (Nat.eqb_spec (m_recursionDepth s) 0); [contradiction|].
    split; [reflexivity|split; [apply addrs_deactivate|apply lookup_deactivate; exact Hin]].
Qed.

(** C6 (amended).  [connected] is true exactly when the handle names this
    signal and a node of its ring (deactivated or not, the sentinel
    excluded) sits at the handle's address. *)
Theorem connected_iff_in_ring s con :
  wf s -> (connected con s = true <-> fst con = self s /\ In (snd con) (addrs (ring s))).
Proof. apply connected_spec. Qed.

(** C7 (amended).  The member-function forms with a null receiver leave
    the signal unchanged and return the empty handle, which no signal
    reports as connected; the plain form given an empty function is not
    a no-op: it appends a node with an empty slot and returns a handle
    reported as connected.  Along any history of the signal (its
    [connect] and [disconnect] calls, the counter steps and the sweep of
    [emit]), a node of the ring has an empty slot exactly when it was
    connected with an empty function or deactivated by a [disconnect]
    issued while the counter was non-zero; an emission, with all the
    slot code it runs, moves the signal along such a history. *)
Theorem connect_null_cases {C : Type} s (mf : C -> slot_type) :
  wf s ->
  connect_ptr alloc None mf s = (s, null_handler) /\ connected null_handler s = false /\
  ring (fst (connect alloc None s)) = ring s ++ [mk_node (snd (snd (connect alloc None s))) None] /\
  connected (snd (connect alloc None s)) (fst (connect alloc None s)) = true /\
  (forall s' N D, reach alloc s' N D ->
     (forall n, In n (ring s') -> (m_function n = None <-> In (addr n) N \/ In (addr n) D)) /\
     incl N (addrs (ring s')) /\ incl D (addrs (ring s'))) /\
  (forall A B fuel ctrl (ag : aggregation A B) (w : @world R) N D, reach alloc (sig w) N D ->
     reach_res alloc (signal_emit alloc fuel ctrl ag w)).
Proof.
  intros Hw. pose proof (connect_spec alloc alloc_fresh None s Hw) as
    (Er & Es & Ec & _ & _ & _ & _ & _ & W).
  split; [reflexivity|split; [|split; [exact Er|split; [|split]]]].
  - unfold connected, null_handler. cbn. destruct Hw as [Hs _].
    destruct (self s); [congruence|reflexivity].
  - apply connected_spec; [exact W|]. split; [congruence|].
    rewrite Er, addrs_app. apply in_or_app. right. left. reflexivity.
  - intros s' N D Hr. exact (reach_empty alloc alloc_fresh s' N D Hr).
  - intros A B fuel ctrl ag w N D Hr. unfold signal_emit.
    pose proof (proj2 (proj2 (reach_interp alloc fuel)) 0 ctrl A (aggregate ag) (agg_init ag)
                  w N D Hr) as P.
    destruct (emit alloc fuel 0 ctrl (aggregate ag) (agg_init ag) w); exact P.
Qed.

(** C10.  While the counter is non-zero, disconnecting a node of the ring
    returns true, clears its slot and sets the flag; from then on, as long
    as the emission only lets the signal grow, disconnecting it again
    returns true and leaves the signal exactly as it is. *)
Theorem disconnect_again_nested s con :
  wf s -> m_recursionDepth s <> 0 -> fst con = self s -> In (snd con) (addrs (ring s)) ->
  exists s1, disconnect con s = Some (true, s1) /\ m_deactivations s1 = true /\
    addrs (ring s1) = addrs (ring s) /\
    (exists n, lookup (snd con) (ring s1) = Some n /\ m_function n = None) /\
    forall s2, wf s2 -> grows s1 s2 -> disconnect con s2 = Some (true, s2).
Proof.
  intros Hw Hd Hs Hin. destruct (wf_head_some s _ Hw Hin) as [h E].
  rewrite (disconnect_found s con h Hw E Hs Hin).
  destruct (Nat.eqb_spec (m_recursionDepth s) 0) as [|Hn0]; [contradiction|].
  eexists. split; [reflexivity|split; [reflexivity|split; [apply addrs_deactivate|]]].
  destruct (lookup_deactivate (snd con) (ring s) Hin) as (n & L & F).
  split; [exists n; split; assumption|].
  intros s2 W2 (Hs2 & Hh2 & Hd2 & Ev & Hm & _). cbn in *.
  destruct (evolves_lookup _ _ _ _ Ev L) as (n2 & L2 & F2).
  assert (F2' : m_function n2 = None) by (destruct F2; congruence).
  assert (In2 : In (snd con) (addrs (ring s2))).
  { apply lookup_some in L2. destruct L2 as [A I]. rewrite <- A. apply in_map. exact I. }
  rewrite (disconnect_found s2 con h W2 ltac:(congruence) ltac:(congruence) In2).
  destruct (Nat.eqb_spec (m_recursionDepth s2) 0); [congruence|].
  rewrite (deactivate_noop _ _ _ L2 F2').
  specialize (Hm eq_refl). destruct s2; cbn in *. subst. reflexivity.
Qed.

(** C2.  When [emit] returns normally, what it returns is the state left
    by its loop, swept (every node with an empty slot unlinked, the flag
    cleared) exactly when the counter is zero and the flag is set at that
    point: a nested emission returns the state of its loop untouched, in
    which the nodes only [grow], while the outermost emission (counter
    zero) that finds the flag set leaves no empty slot behind. *)
Theorem emit_sweep_decision fuel nest ctrl A (agg : A -> R -> A) acc w acc' w' :
  wf (sig w) -> emit alloc fuel nest ctrl agg acc w = Ok acc' w' ->
  (m_head (sig w) = None /\ w' = w) \/
  exists h w1 ok, m_head (sig w) = Some h /\
    emit_loop alloc (pred fuel) nest ctrl agg h (first_of h (ring (sig w))) true acc w
      = Ok (acc', ok) w1 /\
    grows (sig w) (sig w1) /\
    log w' = log w1 /\
    sig w' = (if (m_recursionDepth (sig w1) =? 0) && m_deactivations (sig w1)
              then sweep (sig w1) else sig w1) /\
    (m_recursionDepth (sig w) <> 0 -> sig w' = sig w1) /\
    (m_recursionDepth (sig w) = 0 -> m_deactivations (sig w1) = true ->
       Forall (fun n => has_slot n = true) (ring (sig w')) /\ m_deactivations (sig w') = false).
Proof.
  intros Hw E. destruct (emit_ok_shape alloc alloc_fresh _ _ _ _ _ _ _ _ _ Hw E)
    as [(H & _ & ->)|(h & w1 & ok & Eh & EL & W1 & G1 & L1 & ->)]; [left; auto|right].
  exists h, w1, ok. split; [exact Eh|split; [exact EL|split; [exact G1|]]].
  split; [apply emit_tail_log|split; [unfold emit_tail; destruct (_ && _); reflexivity|]].
  split.
  - intros Hd. unfold emit_tail. rewrite (grows_depth _ _ G1).
    destruct (Nat.eqb_spec (m_recursionDepth (sig w)) 0); [contradiction|reflexivity].
  - intros Hd F. apply emit_tail_sweeps; [rewrite (grows_depth _ _ G1); exact Hd|exact F].
Qed.

(** C5.  A normal return of [emit] logs no raised error, so an error
    raised by a slot always propagates out of [emit].  When it does, the
    raise is the last event logged (no slot is invoked after it), the
    counter is back to its value before the emission and agreed with the
    nesting at every logged event, the signal is well formed, its nodes
    stayed linked (those whose slot was cleared are pending, with the
    flag set), and the next outermost emission that returns normally
    sweeps them. *)
Theorem emit_error_propagates fuel nest ctrl A (agg : A -> R -> A) acc w :
  wf (sig w) -> m_recursionDepth (sig w) = nest ->
  (forall acc' w', emit alloc fuel nest ctrl agg acc w = Ok acc' w' ->
     exists new, log w' = log w ++ new /\ Forall (fun e => is_raise e = false) new) /\
  (forall w', emit alloc fuel nest ctrl agg acc w = Exn w' ->
     m_recursionDepth (sig w') = nest /\
     (exists new e, log w' = log w ++ new ++ [e] /\ is_raise e = true /\
                    Forall depth_ok (new ++ [e])) /\
     wf (sig w') /\ grows (sig w) (sig w') /\
     (nest = 0 -> m_deactivations (sig w') = true ->
      forall fuel' ctrl' B (agg' : B -> R -> B) b b' w'',
        emit alloc fuel' 0 ctrl' agg' b w' = Ok b' w'' ->
        Forall (fun n => has_slot n = true) (ring (sig w'')) /\
        m_deactivations (sig w'') = false)).
Proof.
  intros Hw Hd. pose proof (emit_post_holds alloc alloc_fresh fuel nest ctrl A agg acc w Hw) as P.
  split.
  - intros acc' w' E. rewrite E in P. destruct P as (_ & (new & L & _ & Rr) & _). eauto.
  - intros w' E. pose proof (emit_exn_head alloc _ _ _ _ _ _ _ _ E) as Hh.
    rewrite E in P. destruct P as (W' & G & (new & e & L & Ee & D)).
    split; [rewrite (grows_depth _ _ G); exact Hd|].
    split; [exists new, e; auto|split; [exact W'|split; [exact G|]]].
    intros H0 F fuel' ctrl' B agg' b b' w'' E'.
    apply (emit_outer_clean alloc alloc_fresh fuel' ctrl' B agg' b w' b' w'' W');
      [rewrite (grows_depth _ _ G); congruence|rewrite (grows_head _ _ G); exact Hh|exact F|exact E'].
Qed.

(** C8.  Started with the counter equal to the nesting (zero for an
    emission from outside the signal's slots), an emission logs every
    slot invocation, every operation a slot performs on the signal (the
    [disconnect]s among them) and every raise with a counter equal to the
    number of slot invocations of the signal then on the call stack, and
    leaves the counter as it found it, whether it returns or raises. *)
Theorem emit_counter_nesting fuel nest ctrl A (agg : A -> R -> A) acc w :
  wf (sig w) -> m_recursionDepth (sig w) = nest ->
  match emit alloc fuel nest ctrl agg acc w with
  | Ok _ w' | Exn w' =>
      m_recursionDepth (sig w') = nest /\
      exists new, log w' = log w ++ new /\ Forall depth_ok new
  | UB | NoFuel => True
  end.
Proof.
  intros Hw Hd. pose proof (emit_post_holds alloc alloc_fresh fuel nest ctrl A agg acc w Hw) as P.
  destruct (emit alloc fuel nest ctrl agg acc w) as [a w'|w'| |] eqn:E; try exact I.
  - destruct P as (_ & (new & L & D & _) & _). split; [|exists new; auto].
    destruct (emit_ok_shape alloc alloc_fresh _ _ _ _ _ _ _ _ _ Hw E)
      as [(_ & _ & ->)|(h & w1 & ok & _ & _ & _ & G1 & _ & ->)]; [exact Hd|].
    rewrite emit_tail_depth, (grows_depth _ _ G1). exact Hd.
  - destruct P as (_ & G & (new & e & L & _ & D)).
    split; [rewrite (grows_depth _ _ G); exact Hd|exists (new ++ [e]); auto].
Qed.

(** C3.  Connecting slots A, B and C in this order to a well-formed
    signal that no emission is running on, and then emitting from
    outside the signal's slots, invokes the slots already connected, then
    A, then B, then C; the slots are ones that do nothing on the signal
    (so that none of them connects or disconnects anything), with the
    default controller [condition_all] and any aggregation. *)
Theorem connect_order_emit s vA vB vC fuel A (agg : A -> R -> A) acc :
  wf s -> m_recursionDepth s = 0 -> Forall quiet (ring s) -> length (ring s) + 3 < fuel ->
  let pA := connect alloc (Some ([], vA)) s in
  let pB := connect alloc (Some ([], vB)) (fst pA) in
  let pC := connect alloc (Some ([], vC)) (fst pB) in
  exists acc' w', emit alloc (S fuel) 0 condition_all agg acc (mk_world (fst pC) []) = Ok acc' w' /\
    invocations (log w') =
      addrs (filter has_slot (ring s)) ++ [snd (snd pA); snd (snd pB); snd (snd pC)].
Proof.
  intros Hw Hd Hq Hf pA pB pC.
  pose proof (connect_spec alloc alloc_fresh (Some ([], vA)) s Hw) as SA.
  cbv zeta in SA. fold pA in SA. destruct SA as (EA & _ & _ & _ & _ & _ & _ & _ & WA).
  pose proof (connect_spec alloc alloc_fresh (Some ([], vB)) (fst pA) WA) as SB.
  cbv zeta in SB. fold pB in SB. destruct SB as (EB & _ & _ & _ & _ & _ & _ & _ & WB).
  pose proof (connect_spec alloc alloc_fresh (Some ([], vC)) (fst pB) WB) as SC.
  cbv zeta in SC. fold pC in SC. destruct SC as (EC & _ & _ & HC & _ & _ & _ & _ & WC).
  destruct (m_head (fst pC)) as [h|] eqn:Eh; [|contradiction].
  assert (Er : ring (fst pC) = ring s ++ [mk_node (snd (snd pA)) (Some ([], vA));
                                         mk_node (snd (snd pB)) (Some ([], vB));
                                         mk_node (snd (snd pC)) (Some ([], vC))]).
  { rewrite EC, EB, EA, <- !app_assoc. reflexivity. }
  assert (Hq' : Forall quiet (ring (fst pC))).
  { rewrite Er. apply Forall_app. split; [exact Hq|]. repeat constructor. }
  rewrite (quiet_emit alloc fuel 0 condition_all A agg acc (mk_world (fst pC) []) h WC Eh Hq')
    by (cbn [sig]; rewrite Er, length_app; cbn [length]; lia).
  eexists. eexists. split; [reflexivity|].
  rewrite emit_tail_log. cbn [log sig app]. rewrite invocations_map.
  unfold condition_all. rewrite quiet_pass_all, Er, filter_app, addrs_app. reflexivity.
Qed.

(** C9.  Three slots returning true, false and any value [v], connected
    in this order to a new signal: emitting with [aggregation_last] and
    [condition_while] true invokes the first two and not the third, and
    returns false. *)
Theorem while_true_last this v fuel :
  this <> 0 -> 3 < fuel ->
  let p1 := connect alloc (Some ([] : list (cmd bool), true)) (new_signal this) in
  let p2 := connect alloc (Some ([], false)) (fst p1) in
  let p3 := connect alloc (Some ([], v)) (fst p2) in
  exists w', signal_emit alloc (S fuel) (condition_while Bool.eqb true) (aggregation_last false)
               (mk_world (fst p3) []) = Ok false w' /\
    invocations (log w') = [snd (snd p1); snd (snd p2)] /\
    ~ In (snd (snd p3)) (invocations (log w')).
Proof.
  intros Ht Hf p1 p2 p3.
  pose proof (connect_spec alloc alloc_fresh (Some ([], true)) (new_signal this)
                (wf_new_signal this Ht)) as S1.
  cbv zeta in S1. fold p1 in S1. destruct S1 as (E1 & _ & _ & _ & _ & _ & _ & _ & W1).
  pose proof (connect_spec alloc alloc_fresh (Some ([], false)) (fst p1) W1) as S2.
  cbv zeta in S2. fold p2 in S2. destruct S2 as (E2 & _ & _ & _ & _ & _ & _ & _ & W2).
  pose proof (connect_spec alloc alloc_fresh (Some ([], v)) (fst p2) W2) as S3.
  cbv zeta in S3. fold p3 in S3. destruct S3 as (E3 & _ & _ & H3 & _ & _ & _ & N3 & W3).
  destruct (m_head (fst p3)) as [h|] eqn:Eh; [|contradiction].
  assert (Er : ring (fst p3) = [mk_node (snd (snd p1)) (Some ([], true));
                                mk_node (snd (snd p2)) (Some ([], false));
                                mk_node (snd (snd p3)) (Some ([], v))]).
  { rewrite E3, E2, E1. reflexivity. }
  assert (Hq : Forall quiet (ring (fst p3))) by (rewrite Er; repeat constructor).
  unfold signal_emit.
  rewrite (quiet_emit alloc fuel 0 _ _ _ _ (mk_world (fst p3) []) h W3 Eh Hq)
    by (cbn [sig]; rewrite Er; cbn [length]; lia).
  change (sig (mk_world (fst p3) [])) with (fst p3). rewrite Er.
  cbn [quiet_pass m_function addr condition_while Bool.eqb fst snd aggregate agg_get
       aggregation_last].
  eexists. split; [reflexivity|].
  rewrite emit_tail_log. cbn [log app]. rewrite invocations_map. split; [reflexivity|].
  rewrite E2, E1 in N3. cbn in N3. intros [H|[H|[]]]; apply N3; auto.
Qed.

(** C4 (amended).  [connect] called from a running slot appends the new
    node behind every node of the ring, at an address not in use.  Take
    a pass that resumes at the cursor and finishes normally, and a node
    that was at or ahead of the cursor, or not yet connected, and that is
    in the ring when the pass ends.  Either the loop reaches, by whole
    iterations, a state with the cursor on that node and the controller
    not having stopped it, and then the node is invoked in this pass
    unless its slot is empty at that moment (it was disconnected, or
    connected with an empty function); or the controller stops the walk
    with the cursor still at or before that node. *)
Theorem connected_during_pass_invoked s f fuel nest ctrl A (agg : A -> R -> A) h node acc w
    x acc' ok' w' :
  (wf s -> m_head s = Some h ->
     fst (connect alloc f s) = with_ring s (ring s ++ [mk_node (snd (snd (connect alloc f s))) f]) /\
     ~ In (snd (snd (connect alloc f s))) (h :: addrs (ring s))) /\
  (wf (sig w) -> m_head (sig w) = Some h ->
   ((exists pre suf, addrs (ring (sig w)) = pre ++ node :: suf /\ In x (node :: suf)) \/
    ~ In x (addrs (ring (sig w)))) ->
   emit_loop alloc fuel nest ctrl agg h node true acc w = Ok (acc', ok') w' ->
   In x (addrs (ring (sig w'))) ->
   exists new, log w' = log w ++ new /\
     ((exists fuel_x acc_x w_x,
         loop_path alloc nest ctrl agg h fuel node true acc w fuel_x x true acc_x w_x /\
         forall n, lookup x (ring (sig w_x)) = Some n -> m_function n <> None ->
           exists d, In (Invoked x d (S nest)) new) \/
      (exists fuel_s node_s acc_s pre suf,
         loop_path alloc nest ctrl agg h fuel node true acc w fuel_s node_s false acc_s w' /\
         ok' = false /\ acc' = acc_s /\
         addrs (ring (sig w')) = pre ++ node_s :: suf /\ In x (node_s :: suf)))).
Proof.
  split.
  - intros Hw Hh. rewrite (connect_eq alloc f s h Hh). split; [reflexivity|apply alloc_fresh].
  - intros Hw Hh Hx E Hin. exact (loop_reaches_path alloc alloc_fresh nest ctrl A agg h x fuel
                                   node acc w acc' ok' w' Hw Hh Hx E Hin).
Qed.

End Claims.

(** ** Witnesses and counterexamples *)

Lemma disconnect_handle_cases_witness :
  ((fst reuse_con <> self reuse_s1 \/ ~ In (snd reuse_con) (live reuse_s1)) ->
     disconnect reuse_con reuse_s1 = Some (false, reuse_s1)) /\
  (fst reuse_con = self reuse_s1 -> In (snd reuse_con) (addrs (ring reuse_s1)) ->
     m_recursionDepth reuse_s1 = 0 ->
     disconnect reuse_con reuse_s1 =
       Some (true, with_ring reuse_s1 (extract (snd reuse_con) (ring reuse_s1))) /\
     ~ In (snd reuse_con) (addrs (extract (snd reuse_con) (ring reuse_s1)))) /\
  (fst reuse_con = self reuse_s1 -> In (snd reuse_con) (addrs (ring reuse_s1)) ->
     m_recursionDepth reuse_s1 <> 0 ->
     disconnect reuse_con reuse_s1 =
       Some (true, with_deactivations (with_ring reuse_s1
                     (deactivate (snd reuse_con) (ring reuse_s1))) true) /\
     addrs (deactivate (snd reuse_con) (ring reuse_s1)) = addrs (ring reuse_s1) /\
     exists n, lookup (snd reuse_con) (deactivate (snd reuse_con) (ring reuse_s1)) = Some n /\
               m_function n = None).
Proof. apply (disconnect_handle_cases reuse_s1 reuse_con). exact wf_reuse_s1. Defined.

(** C1: a handle kept after its node was deleted: once [connect] reuses
    the address, [disconnect] of the old handle returns true and deletes
    the newer slot. *)
Lemma disconnect_stale_handle_reused :
  disconnect reuse_con reuse_s1 = Some (true, reuse_s2) /\ ring reuse_s2 = [] /\
  ring reuse_s3 = [mk_node 2 (Some ([], 5))] /\ reuse_con = (100, 2) /\
  disconnect reuse_con reuse_s3 = Some (true, reuse_s2).
Proof. vm_compute. repeat split. Qed.

Lemma connected_iff_in_ring_witness :
  connected reuse_con reuse_s1 = true <->
  fst reuse_con = self reuse_s1 /\ In (snd reuse_con) (addrs (ring reuse_s1)).
Proof. apply (connected_iff_in_ring reuse_s1 reuse_con). exact wf_reuse_s1. Defined.

(** C6: the same stale handle is reported as connected once its address
    is reused. *)
Lemma connected_stale_handle_reused :
  disconnect reuse_con reuse_s1 = Some (true, reuse_s2) /\ ring reuse_s2 = [] /\
  connected reuse_con reuse_s2 = false /\ connected reuse_con reuse_s3 = true.
Proof. vm_compute. repeat split. Qed.

Lemma connect_null_cases_witness :
  connect_ptr next_free None (fun _ : unit => ([] : list (cmd nat), 0)) (new_signal 100)
    = (new_signal 100, null_handler) /\
  connected null_handler (@new_signal nat 100) = false /\
  ring (fst (connect next_free None (@new_signal nat 100))) =
    ring (@new_signal nat 100) ++
      [mk_node (snd (snd (connect next_free None (@new_signal nat 100)))) None] /\
  connected (snd (connect next_free None (@new_signal nat 100)))
            (fst (connect next_free None (@new_signal nat 100))) = true /\
  (forall (s' : @signal nat) N D, reach next_free s' N D ->
     (forall n, In n (ring s') -> (m_function n = None <-> In (addr n) N \/ In (addr n) D)) /\
     incl N (addrs (ring s')) /\ incl D (addrs (ring s'))) /\
  (forall A B fuel ctrl (ag : aggregation A B) (w : @world nat) N D, reach next_free (sig w) N D ->
     reach_res next_free (signal_emit next_free fuel ctrl ag w)) /\
  reach next_free null_slot_s [2] [].
Proof.
  destruct (connect_null_cases next_free next_free_fresh (new_signal 100)
              (fun _ : unit => ([] : list (cmd nat), 0)))
    as (T1 & T2 & T3 & T4 & T5 & T6); [apply wf_new_signal; discriminate|].
  split; [exact T1|split; [exact T2|split; [exact T3|split; [exact T4|]]]].
  split; [exact T5|split; [exact T6|]].
  exact (r_connect next_free _ _ _ None (r_new next_free 100 ltac:(discriminate))).
Defined.

(** C7: [connect] of an empty function inserts a node with an empty slot
    and returns a live handle. *)
Lemma connect_empty_function :
  ring null_slot_s = [mk_node 2 None] /\ null_slot_con = (100, 2) /\
  connected null_slot_con null_slot_s = true /\ null_slot_con <> null_handler.
Proof. vm_compute. repeat split. discriminate. Qed.

Lemma disconnect_again_nested_witness :
  exists s1, disconnect reuse_con (with_depth reuse_s1 1) = Some (true, s1) /\
    m_deactivations s1 = true /\
    addrs (ring s1) = addrs (ring (with_depth reuse_s1 1)) /\
    (exists n, lookup (snd reuse_con) (ring s1) = Some n /\ m_function n = None) /\
    forall s2, wf s2 -> grows s1 s2 -> disconnect reuse_con s2 = Some (true, s2).
Proof.
  apply (disconnect_again_nested (with_depth reuse_s1 1) reuse_con).
  - apply wf_with_depth, wf_reuse_s1.
  - discriminate.
  - reflexivity.
  - vm_compute. left. reflexivity.
Defined.

Lemma wf_drop_w0 : wf (sig drop_w0).
Proof. apply (wf_connect next_free next_free_fresh), wf_new_signal. discriminate. Qed.

Lemma wf_throw_w0 : wf (sig throw_w0).
Proof.
  apply (wf_connect next_free next_free_fresh), (wf_connect next_free next_free_fresh),
    wf_new_signal. discriminate.
Qed.

Lemma emit_sweep_decision_witness :
  (m_head (sig drop_w0) = None /\ drop_w' = drop_w0) \/
  exists h w1 ok, m_head (sig drop_w0) = Some h /\
    emit_loop next_free 19 0 condition_all (fun a r => a ++ [r]) h
      (first_of h (ring (sig drop_w0))) true [] drop_w0 = Ok ([0], ok) w1 /\
    grows (sig drop_w0) (sig w1) /\
    log drop_w' = log w1 /\
    sig drop_w' = (if (m_recursionDepth (sig w1) =? 0) && m_deactivations (sig w1)
                   then sweep (sig w1) else sig w1) /\
    (m_recursionDepth (sig drop_w0) <> 0 -> sig drop_w' = sig w1) /\
    (m_recursionDepth (sig drop_w0) = 0 -> m_deactivations (sig w1) = true ->
       Forall (fun n => has_slot n = true) (ring (sig drop_w')) /\
       m_deactivations (sig drop_w') = false).
Proof.
  apply (emit_sweep_decision next_free next_free_fresh 20 0 condition_all (list nat)
           (fun a r => a ++ [r]) [] drop_w0 [0] drop_w' wf_drop_w0).
  vm_compute. reflexivity.
Defined.

Lemma emit_error_propagates_witness :
  exists w', emit next_free 20 0 condition_all (fun a r => a ++ [r]) [] throw_w0 = Exn w' /\
     m_recursionDepth (sig w') = 0 /\
     (exists new e, log w' = log throw_w0 ++ new ++ [e] /\ is_raise e = true /\
                    Forall depth_ok (new ++ [e])) /\
     wf (sig w') /\ grows (sig throw_w0) (sig w') /\ m_deactivations (sig w') = true /\
     (forall fuel' ctrl' B (agg' : B -> nat -> B) b b' w'',
        emit next_free fuel' 0 ctrl' agg' b w' = Ok b' w'' ->
        Forall (fun n => has_slot n = true) (ring (sig w'')) /\
        m_deactivations (sig w'') = false).
Proof.
  destruct (emit_error_propagates next_free next_free_fresh 20 0 condition_all (list nat)
              (fun a r => a ++ [r]) [] throw_w0 wf_throw_w0 eq_refl) as [_ T].
  set (w' := match emit next_free 20 0 condition_all (fun a r => a ++ [r]) [] throw_w0 with
             | Exn w => w | _ => throw_w0 end).
  assert (E : emit next_free 20 0 condition_all (fun a r => a ++ [r]) [] throw_w0 = Exn w')
    by (vm_compute; reflexivity).
  assert (F : m_deactivations (sig w') = true) by (vm_compute; reflexivity).
  destruct (T w' E) as (D & Lg & W & G & K).
  exists w'. split; [exact E|split; [exact D|split; [exact Lg|split; [exact W|]]]].
  split; [exact G|split; [exact F|exact (K eq_refl F)]].
Defined.

Lemma emit_counter_nesting_witness :
  match emit next_free 20 0 condition_all (fun a r => a ++ [r]) [] throw_w0 with
  | Ok _ w' | Exn w' =>
      m_recursionDepth (sig w') = 0 /\
      exists new, log w' = log throw_w0 ++ new /\ Forall depth_ok new
  | UB | NoFuel => True
  end.
Proof.
  apply (emit_counter_nesting next_free next_free_fresh 20 0 condition_all (list nat)
           (fun a r => a ++ [r]) [] throw_w0 wf_throw_w0).
  reflexivity.
Defined.

Lemma connect_order_emit_witness :
  let pA := connect next_free (Some ([], 1)) (@new_signal nat 100) in
  let pB := connect next_free (Some ([], 2)) (fst pA) in
  let pC := connect next_free (Some ([], 3)) (fst pB) in
  exists acc' w', emit next_free 11 0 condition_all (fun a r => a ++ [r]) []
                    (mk_world (fst pC) []) = Ok acc' w' /\
    invocations (log w') =
      addrs (filter has_slot (ring (@new_signal nat 100))) ++
        [snd (snd pA); snd (snd pB); snd (snd pC)].
Proof.
  apply (connect_order_emit next_free next_free_fresh (new_signal 100) 1 2 3 10 (list nat)
           (fun a r => a ++ [r]) []).
  - split; [discriminate|reflexivity].
  - reflexivity.
  - constructor.
  - cbn. lia.
Defined.

Lemma while_true_last_witness :
  let p1 := connect next_free (Some ([] : list (cmd bool), true)) (new_signal 100) in
  let p2 := connect next_free (Some ([], false)) (fst p1) in
  let p3 := connect next_free (Some ([], true)) (fst p2) in
  exists w', signal_emit next_free 5 (condition_while Bool.eqb true) (aggregation_last false)
               (mk_world (fst p3) []) = Ok false w' /\
    invocations (log w') = [snd (snd p1); snd (snd p2)] /\
    ~ In (snd (snd p3)) (invocations (log w')).
Proof.
  apply (while_true_last next_free next_free_fresh 100 true 4); [discriminate|lia].
Defined.

Lemma wf_run_w0 : wf (sig run_w0).
Proof. apply (wf_connect next_free next_free_fresh), wf_new_signal. discriminate. Qed.

Lemma connected_during_pass_invoked_witness :
  wf (incr (sig run_w0)) /\ m_head (incr (sig run_w0)) = Some 1 /\
  fst (connect next_free (Some ([Disconnect 100 3], 7)) (incr (sig run_w0))) =
    with_ring (incr (sig run_w0)) (ring (incr (sig run_w0)) ++
      [mk_node (snd (snd (connect next_free (Some ([Disconnect 100 3], 7)) (incr (sig run_w0)))))
         (Some ([Disconnect 100 3], 7))]) /\
  ~ In (snd (snd (connect next_free (Some ([Disconnect 100 3], 7)) (incr (sig run_w0)))))
      (1 :: addrs (ring (incr (sig run_w0)))) /\
  wf (sig run_w0) /\ m_head (sig run_w0) = Some 1 /\ ~ In 3 (addrs (ring (sig run_w0))) /\
  emit_loop next_free 19 0 (condition_while Nat.eqb 0) (fun a r => a ++ [r]) 1 2 true [] run_w0 =
    Ok ([0; 7], false) run_loop_w /\
  In 3 (addrs (ring (sig run_loop_w))) /\
  (exists new, log run_loop_w = log run_w0 ++ new /\
    ((exists fuel_x acc_x w_x,
        loop_path next_free 0 (condition_while Nat.eqb 0) (fun a r => a ++ [r]) 1
          19 2 true [] run_w0 fuel_x 3 true acc_x w_x /\
        forall n, lookup 3 (ring (sig w_x)) = Some n -> m_function n <> None ->
          exists d, In (Invoked 3 d 1) new) \/
     (exists fuel_s node_s acc_s pre suf,
        loop_path next_free 0 (condition_while Nat.eqb 0) (fun a r => a ++ [r]) 1
          19 2 true [] run_w0 fuel_s node_s false acc_s run_loop_w /\
        false = false /\ [0; 7] = acc_s /\
        addrs (ring (sig run_loop_w)) = pre ++ node_s :: suf /\ In 3 (node_s :: suf)))) /\
  In (Invoked 3 1 1) (log run_loop_w) /\
  (exists n, lookup 3 (ring (sig run_loop_w)) = Some n /\ m_function n = None).
Proof.
  assert (Wi : wf (incr (sig run_w0))) by (apply wf_with_depth; exact wf_run_w0).
  assert (Hi : m_head (incr (sig run_w0)) = Some 1) by reflexivity.
  assert (Hh : m_head (sig run_w0) = Some 1) by reflexivity.
  assert (Hx : ~ In 3 (addrs (ring (sig run_w0)))) by (vm_compute; intros [H|[]]; discriminate).
  assert (E : emit_loop next_free 19 0 (condition_while Nat.eqb 0) (fun a r => a ++ [r]) 1 2 true []
                run_w0 = Ok ([0; 7], false) run_loop_w) by (vm_compute; reflexivity).
  assert (Hin : In 3 (addrs (ring (sig run_loop_w)))) by (vm_compute; right; left; reflexivity).
  destruct (connected_during_pass_invoked next_free next_free_fresh (incr (sig run_w0))
              (Some ([Disconnect 100 3], 7)) 19 0 (condition_while Nat.eqb 0) (list nat)
              (fun a r => a ++ [r]) 1 2 [] run_w0 3 [0; 7] false run_loop_w) as [T1 T2].
  destruct (T1 Wi Hi) as [C1 C2].
  split; [exact Wi|split; [exact Hi|split; [exact C1|split; [exact C2|]]]].
  split; [exact wf_run_w0|split; [exact Hh|split; [exact Hx|split; [exact E|]]]].
  split; [exact Hin|split; [exact (T2 wf_run_w0 Hh (or_intror Hx) E Hin)|]].
  split; [vm_compute; right; right; left; reflexivity|].
  vm_compute. eexists. split; reflexivity.
Defined.

(** C4: the slot at node 2 connects a slot, which lands at node 3 ahead
    of the cursor, and disconnects it before the cursor gets there: the
    pass completes with the controller never stopping it, and node 3 is
    never invoked. *)
Lemma connected_during_pass_skipped :
  snd (connect next_free (Some ([], 7)) (incr connect_then_drop)) = (100, 3) /\
  emit_loop next_free 19 0 condition_all (fun a r => a ++ [r]) 1 2 true [] drop_w0 =
    Ok ([0], true) drop_loop_w /\
  In 3 (addrs (ring (sig drop_loop_w))) /\
  drop_run = Ok [0] drop_w' /\ invocations (log drop_w') = [2].
Proof. vm_compute. repeat split. right. left. reflexivity. Qed.

(** * Further properties of the code *)

Section Extras.

Context {R : Type}.
Variable alloc : list nat -> nat.
Hypothesis alloc_fresh : forall l, ~ In (alloc l) l.

Lemma extract_app_notin a f (l : list (@node R)) :
  ~ In a (addrs l) -> extract a (l ++ [mk_node a f]) = l.
Proof.
  induction l as [|n l IH]; intros Ha; cbn; [rewrite Nat.eqb_refl; reflexivity|].
  destruct (Nat.eqb_spec (addr n) a) as [E|_]; [exfalso; apply Ha; left; exact E|].
  rewrite IH; [reflexivity|]. intros I; apply Ha; right; exact I.
Qed.

Lemma ring_lazy_head (s : @signal R) : ring (lazy_head alloc s) = ring s.
Proof. unfold lazy_head. destruct (m_head s); reflexivity. Qed.

Lemma self_lazy_head (s : @signal R) : self (lazy_head alloc s) = self s.
Proof. unfold lazy_head. destruct (m_head s); reflexivity. Qed.

(** Removing the node just connected gives back the signal as it was,
    sentinel apart. *)
Lemma disconnect_connect f (s : @signal R) :
  wf s -> m_recursionDepth s = 0 ->
  disconnect (snd (connect alloc f s)) (fst (connect alloc f s)) = Some (true, lazy_head alloc s).
Proof.
  intros Hw Hd.
  pose proof (connect_spec alloc alloc_fresh f s Hw) as P. cbv zeta in P.
  destruct P as (Er & Es & Ec & Hn & _ & Dp & _ & Fr & W).
  destruct (m_head (fst (connect alloc f s))) as [h|] eqn:Hh; [|contradiction].
  assert (I : In (snd (snd (connect alloc f s))) (addrs (ring (fst (connect alloc f s))))).
  { rewrite Er, addrs_app. apply in_or_app. right. left. reflexivity. }
  rewrite (disconnect_found _ _ h W Hh (eq_trans Ec (eq_sym Es)) I), Dp, Hd.
  cbn [Nat.eqb]. rewrite Er, extract_app_notin by exact Fr.
  do 2 f_equal. unfold connect, lazy_head, with_ring, with_head.
  destruct s as [sf hd rg dp fl]. cbn. destruct hd; reflexivity.
Qed.

Lemma connected_as_id con (s : @signal R) :
  fst con = self s -> connected con s = connected_id (snd con) s.
Proof. intros E. unfold connected. rewrite E, Nat.eqb_refl. reflexivity. Qed.

Lemma disconnect_as_id con (s : @signal R) :
  fst con = self s -> disconnect con s = disconnect_id (snd con) s.
Proof. intros E. unfold disconnect. rewrite E, Nat.eqb_refl. reflexivity. Qed.

Lemma emit_tail_head (w : @world R) : m_head (sig (emit_tail w)) = m_head (sig w).
Proof. unfold emit_tail. destruct (_ && _); reflexivity. Qed.

(** Extra X1: [~signal()] run while no emission of the signal is active
    (counter zero) deletes the nodes one at a time from the front: its
    loop test runs once per node and once more, and the signal is left
    with the sentinel alone. *)
Theorem signal_dtor_unlinks_all (s : @signal R) fuel :
  wf s -> m_recursionDepth s = 0 ->
  (length (ring s) < fuel -> signal_dtor fuel s = Finished (with_ring s [])) /\
  (m_head s <> None -> fuel <= length (ring s) -> signal_dtor fuel s = Stuck).
Proof.
  intros Hw Hd. unfold signal_dtor.
  destruct (m_head s) as [h|] eqn:Hh.
  - rewrite (dtor_loop_depth0 h (ring s) fuel s Hh eq_refl (wf_nodup _ _ Hw Hh) Hd).
    split.
    + intros Hf. destruct (Nat.ltb_spec (length (ring s)) fuel); [reflexivity|lia].
    + intros _ Hf. destruct (Nat.ltb_spec (length (ring s)) fuel); [lia|reflexivity].
  - destruct Hw as [_ Hr]. rewrite Hh in Hr.
    split; [intros _; rewrite <- Hr, with_ring_id; reflexivity|intros []; reflexivity].
Qed.

(** Extra X2: [~signal()] run from a slot of the signal (counter non-zero)
    on a signal with a node never ends: [disconnect] only empties the
    first node's slot, so [m_head->next()] never reaches the sentinel. *)
Theorem signal_dtor_nested_hangs (s : @signal R) fuel :
  wf s -> m_recursionDepth s <> 0 -> ring s <> [] -> signal_dtor fuel s = Stuck.
Proof.
  intros Hw Hd Hr. destruct (ring s) as [|n l] eqn:E; [contradiction|].
  destruct (m_head s) as [h|] eqn:Hh.
  - unfold signal_dtor. rewrite Hh. apply (dtor_loop_nested h fuel s n l Hh E); [|exact Hd].
    intros Ea. apply (wf_head_notin _ _ Hw Hh). rewrite E. cbn. left. exact Ea.
  - destruct Hw as [_ Hw]. rewrite Hh, E in Hw. discriminate.
Qed.

(** Extra X3: [connect] disconnects nothing: the handles connected after
    it are exactly those connected before and the one it returns. *)
Theorem connect_keeps_handles f (s : @signal R) con :
  wf s ->
  (connected con (fst (connect alloc f s)) = true <->
   connected con s = true \/ con = snd (connect alloc f s)).
Proof.
  intros Hw.
  pose proof (connect_spec alloc alloc_fresh f s Hw) as P. cbv zeta in P.
  destruct P as (Er & Es & Ec & _ & _ & _ & _ & _ & W).
  rewrite (connected_spec _ con W), (connected_spec _ con Hw), Er, Es, addrs_app.
  destruct (connect alloc f s) as [s1 [c1 a1]]. cbn in Ec |- *. subst c1.
  destruct con as [c a]. cbn. split.
  - intros [-> I]. apply in_app_or in I as [I|[<-|[]]]; [left; auto|right; reflexivity].
  - intros [[-> I]|E]; [split; [reflexivity|apply in_or_app; left; exact I]|].
    injection E as -> ->. split; [reflexivity|apply in_or_app; right; left; reflexivity].
Qed.

(** Extra X4: with no emission active, a [disconnect] that answers [true]
    deletes the connection for good: the handle is no longer connected,
    disconnecting it again answers [false] and changes nothing, and every
    handle naming another node keeps its status. *)
Theorem disconnect_then_gone (s s' : @signal R) con :
  wf s -> m_recursionDepth s = 0 -> disconnect con s = Some (true, s') ->
  connected con s' = false /\ disconnect con s' = Some (false, s') /\
  forall con', snd con' <> snd con -> connected con' s' = connected con' s.
Proof.
  intros Hw Hd D.
  pose proof (wf_disconnect _ _ _ _ Hw D) as W'.
  destruct (disconnect_true_in s s' con Hw Hd D) as [Ef I].
  destruct (wf_head_some s _ Hw I) as [h Hh].
  rewrite (disconnect_found s con h Hw Hh Ef I), Hd in D. cbn in D. injection D as <-.
  pose proof (wf_nodup _ _ Hw Hh) as Nd. apply NoDup_cons_iff in Nd as [Nh Nd].
  pose proof (extract_notin (snd con) _ Nd) as X.
  split; [|split].
  - destruct (connected con _) eqn:C; [|reflexivity].
    apply (connected_spec _ _ W') in C as [_ C]. contradiction.
  - apply disconnect_absent; [exact W'|]. unfold live. cbn. rewrite Hh.
    intros [E|E]; [apply Nh; rewrite E; exact I|exact (X E)].
  - intros con' Hc. apply bool_iff.
    rewrite (connected_spec _ _ W'), (connected_spec _ _ Hw). cbn [self with_ring ring].
    rewrite in_addrs_extract by exact Hc. reflexivity.
Qed.

(** Extra X5: with no emission active, disconnecting the handle [connect]
    just returned gives back the signal as it was before [connect], except
    that a sentinel allocated by that [connect] stays. *)
Theorem connect_disconnect_restores f (s : @signal R) :
  wf s -> m_recursionDepth s = 0 ->
  disconnect (snd (connect alloc f s)) (fst (connect alloc f s)) = Some (true, lazy_head alloc s).
Proof. apply disconnect_connect. Qed.

(** Extra X6: a [connection] or [scoped_connection] built from the handle
    [connect] returned, with the signal stored at its address: its
    [connected()] answers [true]; with no emission active its
    [disconnect()] (also run by [~scoped_connection()]) answers [true],
    updates that signal alone, and afterwards [connected()] answers
    [false]. *)
Theorem connection_lifecycle f (s : @signal R) sigs :
  wf s -> m_recursionDepth s = 0 -> sigs (self s) = Some (fst (connect alloc f s)) ->
  connection_connected sigs (snd (connect alloc f s)) = Some true /\
  exists sigs', connection_disconnect sigs (snd (connect alloc f s)) = Some (true, sigs') /\
    connection_connected sigs' (snd (connect alloc f s)) = Some false /\
    sigs' (self s) = Some (lazy_head alloc s) /\
    forall a, a <> self s -> sigs' a = sigs a.
Proof.
  intros Hw Hd Hs.
  pose proof (connect_spec alloc alloc_fresh f s Hw) as P. cbv zeta in P.
  destruct P as (Er & Es & Ec & _ & _ & _ & _ & Fr & W).
  assert (Ec' : fst (snd (connect alloc f s)) = self (fst (connect alloc f s)))
    by (rewrite Ec, Es; reflexivity).
  pose proof (disconnect_connect f s Hw Hd) as D.
  pose proof (wf_disconnect _ _ _ _ W D) as W0.
  unfold connection_connected, connection_disconnect. rewrite Ec, Hs.
  split.
  - f_equal. rewrite <- (connected_as_id _ _ Ec'). apply connected_spec; [exact W|].
    split; [exact Ec'|]. rewrite Er, addrs_app. apply in_or_app. right. left. reflexivity.
  - rewrite <- (disconnect_as_id _ _ Ec'), D.
    eexists; split; [reflexivity|]. cbn beta. rewrite Nat.eqb_refl. split; [|split].
    + f_equal. assert (Ec0 : fst (snd (connect alloc f s)) = self (lazy_head alloc s))
        by (rewrite Ec, self_lazy_head; reflexivity).
      rewrite <- (connected_as_id _ _ Ec0).
      destruct (connected _ (lazy_head alloc s)) eqn:C; [|reflexivity].
      apply (connected_spec _ _ W0) in C as [_ C]. rewrite ring_lazy_head in C.
      contradiction.
    + reflexivity.
    + intros a Ha. destruct (Nat.eqb_spec a (self s)); [contradiction|reflexivity].
Qed.

End Extras.

(** ** Emissions *)

Section ExtraEmission.

Context {R : Type}.
Variable alloc : list nat -> nat.
Hypothesis alloc_fresh : forall l, ~ In (alloc l) l.

(** An outermost emission over slots that leave the signal alone. *)
Lemma quiet_signal_emit {A B : Type} fuel ctrl (ag : aggregation A B) (w : @world R) :
  wf (sig w) -> Forall quiet (ring (sig w)) -> length (ring (sig w)) < fuel ->
  exists w', signal_emit alloc (S fuel) ctrl ag w =
    Ok (agg_get ag (fold_left (aggregate ag) (map snd (upto ctrl (slot_results (ring (sig w)))))
                              (agg_init ag))) w' /\
    log w' = log w ++ map (fun a => Invoked a (S (m_recursionDepth (sig w))) 1)
                          (map fst (upto ctrl (slot_results (ring (sig w))))) /\
    m_head (sig w') = m_head (sig w).
Proof.
  intros Hw Hq Hl. unfold signal_emit.
  destruct (m_head (sig w)) as [h|] eqn:Hh.
  - rewrite (quiet_emit alloc fuel 0 ctrl A (aggregate ag) (agg_init ag) w h Hw Hh Hq Hl).
    destruct (quiet_pass_upto A (aggregate ag) ctrl (ring (sig w)) (agg_init ag)) as [E1 E2].
    rewrite E1, E2. eexists; split; [reflexivity|split].
    + rewrite emit_tail_log. reflexivity.
    + rewrite emit_tail_head. exact Hh.
  - destruct Hw as [_ Hr]. rewrite Hh in Hr. rewrite emit_S, Hh, Hr.
    eexists; split; [reflexivity|split; [|exact Hh]].
    cbn. rewrite app_nil_r. reflexivity.
Qed.

(** Extra X8: emitting a signal none of whose nodes holds a function (no
    connection, or only connections made with empty functions, or all
    deactivated) calls no slot, returns [get()] of a fresh aggregation
    (for [aggregation_last] the value-initialised result) and does not
    allocate the sentinel. *)
Theorem emit_without_slots {A B : Type} fuel ctrl (ag : aggregation A B) (w : @world R) :
  wf (sig w) -> Forall (fun n => m_function n = None) (ring (sig w)) ->
  length (ring (sig w)) < fuel ->
  exists w', signal_emit alloc (S fuel) ctrl ag w = Ok (agg_get ag (agg_init ag)) w' /\
    log w' = log w /\ m_head (sig w') = m_head (sig w).
Proof.
  intros Hw Hn Hl.
  assert (Hq : Forall quiet (ring (sig w))).
  { eapply Forall_impl; [|exact Hn]. intros n E. unfold quiet. rewrite E. exact I. }
  destruct (quiet_signal_emit fuel ctrl ag w Hw Hq Hl) as (w' & E & L & H).
  rewrite (slot_results_empty _ Hn) in E, L. cbn in E, L.
  exists w'. split; [exact E|split; [rewrite app_nil_r in L; exact L|exact H]].
Qed.

(** Extra X9: over slots that leave the signal alone, [aggregation_collation]
    returns the values of the non-empty slots in connection order, up to
    and including the first one the controller rejects, and exactly
    those slots are called, in that order. *)
Theorem emit_collation_quiet fuel ctrl (w : @world R) :
  wf (sig w) -> Forall quiet (ring (sig w)) -> length (ring (sig w)) < fuel ->
  exists w' new, signal_emit alloc (S fuel) ctrl aggregation_collation w =
      Ok (map snd (upto ctrl (slot_results (ring (sig w))))) w' /\
    log w' = log w ++ new /\
    invocations new = map fst (upto ctrl (slot_results (ring (sig w)))).
Proof.
  intros Hw Hq Hl.
  destruct (quiet_signal_emit fuel ctrl aggregation_collation w Hw Hq Hl) as (w' & E & L & _).
  cbn [agg_get agg_init aggregate aggregation_collation] in E.
  rewrite fold_collation in E. cbn in E.
  exists w', (map (fun a => Invoked a (S (m_recursionDepth (sig w))) 1)
                  (map fst (upto ctrl (slot_results (ring (sig w)))))).
  split; [exact E|split; [exact L|apply invocations_map]].
Qed.

(** Extra X10: over slots that leave the signal alone, [aggregation_last]
    returns the value of the last slot called, and the value-initialised
    result when no slot is called. *)
Theorem emit_last_quiet fuel ctrl d (w : @world R) :
  wf (sig w) -> Forall quiet (ring (sig w)) -> length (ring (sig w)) < fuel ->
  exists w', signal_emit alloc (S fuel) ctrl (aggregation_last d) w =
    Ok (last (map snd (upto ctrl (slot_results (ring (sig w))))) d) w'.
Proof.
  intros Hw Hq Hl.
  destruct (quiet_signal_emit fuel ctrl (aggregation_last d) w Hw Hq Hl) as (w' & E & _ & _).
  cbn [agg_get agg_init aggregate aggregation_last] in E.
  rewrite fold_last in E. exists w'. exact E.
Qed.

(** Extra X11: an emission that returns normally with [aggregation_counter]
    returns the number of slot calls made by its own loop; calls made by
    emissions started from those slots are not counted. *)
Theorem emit_counter_counts fuel ctrl (w : @world R) n w' :
  signal_emit alloc fuel ctrl aggregation_counter w = Ok n w' ->
  exists new, log w' = log w ++ new /\ n = length (invoked_at 1 new).
Proof.
  unfold signal_emit. destruct fuel as [|fuel]; [discriminate|]. rewrite emit_S.
  destruct (m_head (sig w)) as [h|].
  - destruct (emit_loop alloc fuel 0 ctrl (aggregate aggregation_counter) h
                (first_of h (ring (sig w))) true (agg_init aggregation_counter) w)
      as [[acc' ok'] w1|w1| |] eqn:E; try discriminate.
    intros H. injection H as <- <-.
    apply loop_counts in E as (new & L & C). exists new.
    rewrite emit_tail_log. split; [exact L|exact C].
  - intros H. injection H as <- <-. exists []. rewrite app_nil_r. split; reflexivity.
Qed.

(** Extra X12: an emission that returns normally calls each slot at most
    once from its own loop, whatever the slots connect, disconnect or
    emit while it runs. *)
Theorem emit_calls_once {A B : Type} fuel ctrl (ag : aggregation A B) (w : @world R) b w' :
  wf (sig w) -> signal_emit alloc fuel ctrl ag w = Ok b w' ->
  exists new, log w' = log w ++ new /\ NoDup (invoked_at 1 new).
Proof.
  intros Hw. unfold signal_emit. destruct fuel as [|fuel]; [discriminate|]. rewrite emit_S.
  destruct (m_head (sig w)) as [h|] eqn:Hh.
  - destruct (emit_loop alloc fuel 0 ctrl (aggregate ag) h
                (first_of h (ring (sig w))) true (agg_init ag) w)
      as [[acc' ok'] w1|w1| |] eqn:E; try discriminate.
    intros H. injection H as _ <-.
    apply (loop_once alloc alloc_fresh 0 ctrl A (aggregate ag) h fuel _ _ _ w []) in E
      as (new & L & Nd & _); [|exact Hw|exact Hh|].
    + exists new. rewrite emit_tail_log. split; [exact L|exact Nd].
    + destruct (ring (sig w)) as [|n l]; [left; reflexivity|right].
      exists (addrs l). reflexivity.
  - intros H. injection H as _ <-. exists []. rewrite app_nil_r. split; [reflexivity|constructor].
Qed.

(** Extra X13: after an outermost emission (counter zero when it starts)
    of a signal with a sentinel returns normally, the flag
    [m_deactivations] is clear and the signal is well formed, whatever
    the slots did. *)
Theorem emit_outer_flag_clear {A B : Type} fuel ctrl (ag : aggregation A B) (w : @world R) b w' :
  wf (sig w) -> m_recursionDepth (sig w) = 0 -> m_head (sig w) <> None ->
  signal_emit alloc fuel ctrl ag w = Ok b w' ->
  m_deactivations (sig w') = false /\ wf (sig w').
Proof.
  intros Hw Hd Hh. unfold signal_emit.
  destruct (emit alloc fuel 0 ctrl (aggregate ag) (agg_init ag) w) as [a w2| | |] eqn:E;
    try discriminate.
  intros H. injection H as _ <-.
  destruct (emit_ok_shape alloc alloc_fresh fuel 0 ctrl A (aggregate ag) (agg_init ag) w a w2 Hw E)
    as [(Hn & _)|(h & w1 & ok & _ & _ & W1 & G1 & _ & ->)]; [contradiction|].
  unfold emit_tail. rewrite (grows_depth _ _ G1), Hd. cbn.
  destruct (m_deactivations (sig w1)) eqn:F; cbn.
  - split; [reflexivity|apply wf_sweep; exact W1].
  - split; [exact F|exact W1].
Qed.

End ExtraEmission.

(** ** Instances of the further properties *)

Lemma wf_quiet_s : wf quiet_s.
Proof.
  repeat apply (wf_connect next_free next_free_fresh). apply wf_new_signal. discriminate.
Qed.

Lemma wf_null_slot_s : wf null_slot_s.
Proof. apply (wf_connect next_free next_free_fresh), wf_new_signal. discriminate. Qed.

Lemma signal_dtor_unlinks_all_witness :
  wf quiet_s /\ m_recursionDepth quiet_s = 0 /\
  signal_dtor 5 quiet_s = Finished (with_ring quiet_s []) /\ signal_dtor 4 quiet_s = Stuck.
Proof.
  split; [exact wf_quiet_s|split; [reflexivity|split]].
  - apply (proj1 (signal_dtor_unlinks_all quiet_s 5 wf_quiet_s eq_refl)). vm_compute. lia.
  - apply (proj2 (signal_dtor_unlinks_all quiet_s 4 wf_quiet_s eq_refl));
      [vm_compute; discriminate|vm_compute; lia].
Defined.

Lemma signal_dtor_nested_hangs_witness :
  wf (with_depth quiet_s 1) /\ m_recursionDepth (with_depth quiet_s 1) <> 0 /\
  ring (with_depth quiet_s 1) <> [] /\ signal_dtor 7 (with_depth quiet_s 1) = Stuck.
Proof.
  assert (W : wf (with_depth quiet_s 1)) by exact (wf_with_depth _ 1 wf_quiet_s).
  split; [exact W|split; [discriminate|split; [vm_compute; discriminate|]]].
  apply (signal_dtor_nested_hangs _ 7 W); [discriminate|vm_compute; discriminate].
Defined.

Lemma connect_keeps_handles_witness :
  wf reuse_s1 /\
  (connected reuse_con (fst (connect next_free (Some ([], 5)) reuse_s1)) = true <->
   connected reuse_con reuse_s1 = true \/ reuse_con = snd (connect next_free (Some ([], 5)) reuse_s1)).
Proof.
  split; [exact wf_reuse_s1|].
  exact (connect_keeps_handles next_free next_free_fresh (Some ([], 5)) reuse_s1 reuse_con wf_reuse_s1).
Defined.

Lemma disconnect_then_gone_witness :
  wf reuse_s1 /\ m_recursionDepth reuse_s1 = 0 /\ disconnect reuse_con reuse_s1 = Some (true, reuse_s2) /\
  connected reuse_con reuse_s2 = false /\ disconnect reuse_con reuse_s2 = Some (false, reuse_s2) /\
  (forall con', snd con' <> snd reuse_con -> connected con' reuse_s2 = connected con' reuse_s1).
Proof.
  assert (D : disconnect reuse_con reuse_s1 = Some (true, reuse_s2)) by (vm_compute; reflexivity).
  split; [exact wf_reuse_s1|split; [reflexivity|split; [exact D|]]].
  exact (disconnect_then_gone reuse_s1 reuse_s2 reuse_con wf_reuse_s1 eq_refl D).
Defined.

Lemma connect_disconnect_restores_witness :
  wf (@new_signal nat 100) /\ m_recursionDepth (@new_signal nat 100) = 0 /\
  disconnect (snd (connect next_free (Some ([], 0)) (new_signal 100)))
             (fst (connect next_free (Some ([], 0)) (new_signal 100)))
    = Some (true, lazy_head next_free (new_signal 100)).
Proof.
  assert (W : wf (@new_signal nat 100)) by (apply wf_new_signal; discriminate).
  split; [exact W|split; [reflexivity|]].
  exact (connect_disconnect_restores next_free next_free_fresh (Some ([], 0)) _ W eq_refl).
Defined.

Lemma connection_lifecycle_witness :
  wf (@new_signal nat 100) /\ m_recursionDepth (@new_signal nat 100) = 0 /\
  store_of reuse_s1 (self (@new_signal nat 100)) = Some (fst (connect next_free (Some ([], 0)) (new_signal 100))) /\
  connection_connected (store_of reuse_s1) reuse_con = Some true /\
  exists sigs', connection_disconnect (store_of reuse_s1) reuse_con = Some (true, sigs') /\
    connection_connected sigs' reuse_con = Some false /\
    sigs' 100 = Some (lazy_head next_free (new_signal 100)) /\
    forall a, a <> 100 -> sigs' a = store_of reuse_s1 a.
Proof.
  assert (W : wf (@new_signal nat 100)) by (apply wf_new_signal; discriminate).
  assert (S : store_of reuse_s1 (self (@new_signal nat 100)) =
              Some (fst (connect next_free (Some ([], 0)) (new_signal 100)))) by reflexivity.
  split; [exact W|split; [reflexivity|split; [exact S|]]].
  exact (connection_lifecycle next_free next_free_fresh (Some ([], 0)) _ _ W eq_refl S).
Defined.

Lemma emit_without_slots_witness :
  wf null_slot_s /\ Forall (fun n => m_function n = None) (ring null_slot_s) /\
  length (ring null_slot_s) < 3 /\
  exists w', signal_emit next_free 4 condition_all (aggregation_last 7) (mk_world null_slot_s [])
               = Ok 7 w' /\ log w' = [] /\ m_head (sig w') = m_head null_slot_s.
Proof.
  assert (F : Forall (fun n => m_function n = None) (ring null_slot_s))
    by (vm_compute; repeat constructor).
  assert (L : length (ring null_slot_s) < 3) by (vm_compute; lia).
  split; [exact wf_null_slot_s|split; [exact F|split; [exact L|]]].
  exact (emit_without_slots next_free 3 condition_all (aggregation_last 7)
           (mk_world null_slot_s []) wf_null_slot_s F L).
Defined.

Lemma emit_collation_quiet_witness :
  wf quiet_s /\ Forall quiet (ring quiet_s) /\ length (ring quiet_s) < 5 /\
  map snd (upto (condition_while Nat.eqb 3) (slot_results (ring quiet_s))) = [3; 5] /\
  exists w' new, signal_emit next_free 6 (condition_while Nat.eqb 3) aggregation_collation quiet_w =
      Ok (map snd (upto (condition_while Nat.eqb 3) (slot_results (ring quiet_s)))) w' /\
    log w' = log quiet_w ++ new /\
    invocations new = map fst (upto (condition_while Nat.eqb 3) (slot_results (ring quiet_s))).
Proof.
  assert (Q : Forall quiet (ring quiet_s)) by (vm_compute; repeat constructor).
  assert (L : length (ring quiet_s) < 5) by (vm_compute; lia).
  split; [exact wf_quiet_s|split; [exact Q|split; [exact L|split; [vm_compute; reflexivity|]]]].
  exact (emit_collation_quiet next_free 5 (condition_while Nat.eqb 3) quiet_w
           wf_quiet_s Q L).
Defined.

Lemma emit_last_quiet_witness :
  wf quiet_s /\ Forall quiet (ring quiet_s) /\ length (ring quiet_s) < 5 /\
  last (map snd (upto condition_all (slot_results (ring quiet_s)))) 0 = 4 /\
  exists w', signal_emit next_free 6 condition_all (aggregation_last 0) quiet_w =
    Ok (last (map snd (upto condition_all (slot_results (ring quiet_s)))) 0) w'.
Proof.
  assert (Q : Forall quiet (ring quiet_s)) by (vm_compute; repeat constructor).
  assert (L : length (ring quiet_s) < 5) by (vm_compute; lia).
  split; [exact wf_quiet_s|split; [exact Q|split; [exact L|split; [vm_compute; reflexivity|]]]].
  exact (emit_last_quiet next_free 5 condition_all 0 quiet_w wf_quiet_s Q L).
Defined.

Lemma emit_counter_counts_witness :
  exists n w', signal_emit next_free 20 condition_all aggregation_counter drop_w0 = Ok n w' /\
    exists new, log w' = log drop_w0 ++ new /\ n = length (invoked_at 1 new).
Proof.
  eexists; eexists; split; [vm_compute; reflexivity|].
  apply (emit_counter_counts next_free 20 condition_all). vm_compute. reflexivity.
Defined.

Lemma emit_calls_once_witness :
  wf (sig drop_w0) /\
  exists b w', signal_emit next_free 20 condition_all aggregation_collation drop_w0 = Ok b w' /\
    exists new, log w' = log drop_w0 ++ new /\ NoDup (invoked_at 1 new).
Proof.
  split; [exact wf_drop_w0|].
  eexists; eexists; split; [vm_compute; reflexivity|].
  eapply (emit_calls_once next_free next_free_fresh 20 condition_all aggregation_collation
           drop_w0 _ _ wf_drop_w0). vm_compute. reflexivity.
Defined.

Lemma emit_outer_flag_clear_witness :
  wf (sig drop_w0) /\ m_recursionDepth (sig drop_w0) = 0 /\ m_head (sig drop_w0) <> None /\
  exists b w', signal_emit next_free 20 condition_all aggregation_collation drop_w0 = Ok b w' /\
    m_deactivations (sig w') = false /\ wf (sig w').
Proof.
  assert (H : m_head (sig drop_w0) <> None) by (vm_compute; discriminate).
  split; [exact wf_drop_w0|split; [reflexivity|split; [exact H|]]].
  eexists; eexists; split; [vm_compute; reflexivity|].
  eapply (emit_outer_flag_clear next_free next_free_fresh 20 condition_all aggregation_collation
           drop_w0 _ _ wf_drop_w0 eq_refl H). vm_compute. reflexivity.
Defined.
